(** * Load-balancing strategies of [bensinos/interview]: a shallow embedding

    The development follows the Go sources:
    - [balance/smooth_round_robin.go]: smooth weighted round-robin,
    - [balance/random_weight.go]: weighted random,
    - the plain round-robin of package [balance] and its copy in package
      [backend].

    Go's [int] is taken to be the 64-bit signed integer of the usual
    platforms and [uint64] the 64-bit unsigned one; both are carried as [Z]
    with the wrap-around written out.  A [*Node] is an address in a heap of
    nodes, so that the in-place updates of [Next] and the sharing between the
    caller's slice and the balancer are those of the program.  Locks and
    atomics are not modelled: every [Next] runs as one step. *)

From Stdlib Require Import ZArith Lia.
From stdpp Require Import base option list gmap strings.

Open Scope Z_scope.

(** ** Machine integers *)

Module GoInt.

(** [math.MinInt64], [math.MaxInt64] and the two moduli, as numerals. *)
Definition min_int : Z := -9223372036854775808.
Definition max_int : Z := 9223372036854775807.
Definition half_modulus : Z := 9223372036854775808.
Definition modulus : Z := 18446744073709551616.

(** The value an [int] holds after an operation whose exact result is [z]. *)
Definition wrap (z : Z) : Z := (z + half_modulus) mod modulus - half_modulus.

Definition add (a b : Z) : Z := wrap (a + b).
Definition sub (a b : Z) : Z := wrap (a - b).

(** The value a [uint64] holds after an operation whose exact result is [z]. *)
Definition u64 (z : Z) : Z := z mod modulus.

Definition in_range (z : Z) : Prop := min_int <= z <= max_int.

End GoInt.

(** [len] of a slice is an [int]. *)
Definition slice_len_ok {A : Type} (l : list A) : Prop :=
  Z.of_nat (length l) <= GoInt.max_int.

(** ** Panics and results *)

Inductive panic : Type :=
  | NilDereference
  | IndexOutOfRange
  | DivideByZero
  | IntnInvalidArgument
  | ErrNodesEmpty
  | ErrWeightNotPositive (w : Z)
  | ErrWeightExceedsMax (w : Z)
  | ErrTotalExceedsMax (t : Z)
  | ErrServersEmpty.

Inductive result (A : Type) : Type :=
  | Ok (a : A)
  | Panic (e : panic).

Arguments Ok {A} a.
Arguments Panic {A} e.

(** The error monad of the embedding, through stdpp's [mbind] and its
    [x ← m; k] notation. *)
#[export] Instance result_ret : MRet result := fun _ a => Ok a.
#[export] Instance result_bind : MBind result := fun _ _ f m =>
  match m with
  | Ok a => f a
  | Panic e => Panic e
  end.

#[export] Instance result_fmap : FMap result := fun _ _ f m =>
  match m with
  | Ok a => Ok (f a)
  | Panic e => Panic e
  end.

Definition panics {A : Type} (m : result A) : Prop := exists e, m = Panic e.

(** ** Smooth weighted round-robin ([balance/smooth_round_robin.go]) *)

Module Smooth.

Definition maxWeight : Z := 1000000.
Definition maxTotalWeight : Z := 10000000.

Record Node : Type := mkNode {
  server : string;
  current : Z;
  weight : Z
}.

Definition set_current (n : Node) (c : Z) : Node :=
  {| server := server n; current := c; weight := weight n |}.

(** A [*Node] is a key of the heap; [nil] and dangling pointers are the
    keys the heap does not hold. *)
Definition deref (h : gmap nat Node) (p : nat) : result Node :=
  match h !! p with
  | Some n => Ok n
  | None => Panic NilDereference
  end.

(** The struct keeps the caller's slice; its lock is not modelled. *)
Record smoothRoundRobinBalancer : Type := mkBalancer {
  nodes : list nat
}.

(** The validation loop of [NewSmoothRRBalancer], with the running
    [totalWeight]. *)
Fixpoint validate (h : gmap nat Node) (ns : list nat) (totalWeight : Z)
  : result Z :=
  match ns with
  | [] => Ok totalWeight
  | node :: rest =>
      n ← deref h node;
      if weight n <=? 0 then Panic (ErrWeightNotPositive (weight n))
      else if weight n >? maxWeight then Panic (ErrWeightExceedsMax (weight n))
      else validate h rest (GoInt.add totalWeight (weight n))
  end.

Definition NewSmoothRRBalancer (h : gmap nat Node) (nodes : list nat)
  : result smoothRoundRobinBalancer :=
  if decide (length nodes = 0%nat) then Panic ErrNodesEmpty
  else
    totalWeight ← validate h nodes 0;
    if totalWeight >? maxTotalWeight
    then Panic (ErrTotalExceedsMax totalWeight)
    else Ok {| nodes := nodes |}.

(** The loop of [Next]: it writes [node.current] through the pointer, and
    compares with [bestNode.current] as read after that write. *)
Fixpoint Next_loop (h : gmap nat Node) (ns : list nat) (totalWeight : Z)
    (bestNode : option nat) : result (gmap nat Node * Z * option nat) :=
  match ns with
  | [] => Ok (h, totalWeight, bestNode)
  | node :: rest =>
      n ← deref h node;
      let n1 := set_current n (GoInt.add (current n) (weight n)) in
      let h1 := <[node := n1]> h in
      let totalWeight1 := GoInt.add totalWeight (weight n1) in
      bestNode1 ←
        match bestNode with
        | None => Ok (Some node)
        | Some b =>
            nb ← deref h1 b;
            Ok (if current n1 >? current nb then Some node else Some b)
        end;
      Next_loop h1 rest totalWeight1 bestNode1
  end.

(** [Next] returns the pointer [bestNode] ([None] is [nil]) and the heap
    it leaves. *)
Definition Next (r : smoothRoundRobinBalancer) (h : gmap nat Node)
  : result (option nat * gmap nat Node) :=
  '(h1, totalWeight, bestNode) ← Next_loop h (nodes r) 0 None;
  match bestNode with
  | Some b =>
      nb ← deref h1 b;
      Ok (Some b, <[b := set_current nb (GoInt.sub (current nb) totalWeight)]> h1)
  | None => Ok (None, h1)
  end.

(** [k] consecutive calls: the pointers they return, in call order, and
    the heap after the last one. *)
Fixpoint calls (k : nat) (r : smoothRoundRobinBalancer) (h : gmap nat Node)
  : result (list (option nat) * gmap nat Node) :=
  match k with
  | O => Ok ([], h)
  | S k' =>
      '(sel, h1) ← calls k' r h;
      '(b, h2) ← Next r h1;
      Ok (sel ++ [b], h2)
  end.

(** Readers of a node's fields (0 through a pointer that is not allocated,
    where the program would panic). *)
Definition cur (h : gmap nat Node) (p : nat) : Z :=
  match h !! p with Some n => current n | None => 0 end.
Definition wt (h : gmap nat Node) (p : nat) : Z :=
  match h !! p with Some n => weight n | None => 0 end.

Definition allocated (h : gmap nat Node) (ns : list nat) : Prop :=
  Forall (fun p => is_Some (h !! p)) ns.

(** Exact sum of [f] over the entries of a slice. *)
Fixpoint sumZ (f : nat -> Z) (ns : list nat) : Z :=
  match ns with
  | [] => 0
  | p :: rest => f p + sumZ f rest
  end.

(** The same sum as a Go loop [s += f(p)] over [int] computes it. *)
Fixpoint sum_int (f : nat -> Z) (ns : list nat) (acc : Z) : Z :=
  match ns with
  | [] => acc
  | p :: rest => sum_int f rest (GoInt.add acc (f p))
  end.

(** How often [p] was returned. *)
Definition times_selected (p : nat) (sel : list (option nat)) : nat :=
  length (filter (fun b => b = Some p) sel).

(** A slice short enough for the running total of accepted weights, each
    at most [maxWeight], to stay an [int]: at most [MaxInt64 / maxWeight]
    pointers, some 9.2e12 of them. *)
Definition weights_fit (ns : list nat) : Prop :=
  Z.of_nat (length ns) * maxWeight <= GoInt.max_int.

(** What the loop of [Next] leaves in [bestNode], as a function of the
    accumulators [c] it compares: the first entry holding the maximum. *)
Fixpoint pick (c : nat -> Z) (ns : list nat) (bestNode : option nat)
  : option nat :=
  match ns with
  | [] => bestNode
  | p :: rest =>
      pick c rest
        (match bestNode with
         | None => Some p
         | Some b => if c p >? c b then Some p else Some b
         end)
  end.

(** The heap after the loop of [Next] over [ns], read at [p]. *)
Definition bumped (h : gmap nat Node) (ns : list nat) (p : nat) : option Node :=
  if decide (p ∈ ns)
  then (fun n => set_current n (GoInt.add (current n) (weight n))) <$> h !! p
  else h !! p.

(** The configurations the constructor accepts, over distinct nodes of
    weights [W]. *)
Definition accepted (W : nat -> Z) (ns : list nat) : Prop :=
  ns <> [] /\ NoDup ns /\
  (forall p, p ∈ ns -> 0 < W p <= maxWeight) /\
  sumZ W ns <= maxTotalWeight.

(** The heaps a balancer started from zero accumulators goes through:
    the accumulators sum to 0 and each stays above minus the total. *)
Definition steady (W : nat -> Z) (ns : list nat) (h : gmap nat Node) : Prop :=
  allocated h ns /\
  (forall p, p ∈ ns -> wt h p = W p) /\
  sumZ (cur h) ns = 0 /\
  (forall p, p ∈ ns -> - sumZ W ns < cur h p).

(** Accumulators of magnitude at most [2^62]: with accepted weights, a
    call from such a heap does not wrap. *)
Definition safe_current : Z := 4611686018427387904.

(** The selections of five calls over weights 4 and 1, from zero. *)
Definition cycle41 (pa pb : nat) : list (option nat) :=
  [Some pa; Some pa; Some pb; Some pa; Some pa].

(** The longest run of [x] in a sequence of selections, by the counters
    of the smoothness test: the run in progress and the longest so far. *)
Definition run_step (x : option nat) (st : nat * nat) (y : option nat)
  : nat * nat :=
  if decide (y = x) then (S (fst st), Nat.max (snd st) (S (fst st)))
  else (0%nat, snd st).

Definition longest_run (x : option nat) (sel : list (option nat)) : nat :=
  snd (fold_left (run_step x) sel (0%nat, 0%nat)).

End Smooth.

(** ** Weighted random ([balance/random_weight.go]) *)

Module RandomWeight.

Record Server : Type := mkServer {
  Addr : string;
  Weight : Z
}.

(** [servers] is the snapshot held by the [atomic.Value]; the entries are
    only read, so the slice of pointers is carried as the list of the
    records pointed to (a [nil] entry, which has no weight, is left out of
    the model).  [rng] is the generator at its present state: the number
    [r.rng.Intn n] draws from it. *)
Record RandomWeightBalancer : Type := mkBalancer {
  servers : list Server;
  rng : Z -> Z
}.

Definition NewRandomWeightBalancer (servers : list Server) (seeded : Z -> Z)
  : RandomWeightBalancer :=
  {| servers := servers; rng := seeded |}.

(** [math/rand]: [Intn] panics unless [n > 0], and then draws from
    [[0, n)]. *)
Definition Intn (g : Z -> Z) (n : Z) : result Z :=
  if n <=? 0 then Panic IntnInvalidArgument else Ok (g n).

Definition rng_ok (g : Z -> Z) : Prop :=
  forall n, 0 < n -> 0 <= g n < n.

(** [for _, s := range servers { totalWeight += s.Weight }] *)
Fixpoint sum_weights (ss : list Server) (totalWeight : Z) : Z :=
  match ss with
  | [] => totalWeight
  | s :: rest => sum_weights rest (GoInt.add totalWeight (Weight s))
  end.

(** The second loop: the entry at which [idx] turns negative, or [None]
    when the loop runs to its end. *)
Fixpoint walk (ss : list Server) (idx : Z) : option Server :=
  match ss with
  | [] => None
  | s :: rest =>
      let idx1 := GoInt.sub idx (Weight s) in
      if idx1 <? 0 then Some s else walk rest idx1
  end.

Definition Next (r : RandomWeightBalancer) : result string :=
  let servers := servers r in
  if decide (length servers = 0%nat) then Ok ""%string
  else
    let totalWeight := sum_weights servers 0 in
    if totalWeight <=? 0 then Ok ""%string
    else
      idx ← Intn (rng r) totalWeight;
      match walk servers idx with
      | Some s => Ok (Addr s)
      | None =>
          match servers !! 0%nat with
          | Some s => Ok (Addr s)
          | None => Panic IndexOutOfRange
          end
      end.

(** Exact total of the weights, and of the first [i + 1] of them. *)
Fixpoint total (ss : list Server) : Z :=
  match ss with
  | [] => 0
  | s :: rest => Weight s + total rest
  end.

Definition cumulative (ss : list Server) (i : nat) : Z :=
  total (take (S i) ss).

(** Exact total of the magnitudes of the weights: while it fits in an
    [int], no addition or subtraction of [Next] wraps. *)
Fixpoint magnitude (ss : list Server) : Z :=
  match ss with
  | [] => 0
  | s :: rest => Z.abs (Weight s) + magnitude rest
  end.

(** The spec's words: the first entry, in list order, whose cumulative
    weight exceeds [r]. *)
Definition first_exceeding (ss : list Server) (r : Z) (i : nat) : Prop :=
  r < cumulative ss i /\ forall j, (j < i)%nat -> cumulative ss j <= r.

(** The spec's words: walk the list subtracting each weight from [r],
    over the integers, until [r] becomes negative. *)
Fixpoint spec_walk (ss : list Server) (r : Z) : option Server :=
  match ss with
  | [] => None
  | s :: rest =>
      if r - Weight s <? 0 then Some s else spec_walk rest (r - Weight s)
  end.

End RandomWeight.

(** ** Plain round-robin, package [balance] *)

Module RoundRobin.

Record RoundRobinBalancer : Type := mkBalancer {
  servers : list string;
  index : Z
}.

Definition NewRoundRobinBalancer (servers : list string)
  : result RoundRobinBalancer :=
  Ok {| servers := servers; index := 0 |}.

(** [uint64(len(r.servers))]; the remainder panics on a zero divisor. *)
Definition select (servers : list string) (newVal : Z) : result string :=
  let n := GoInt.u64 (Z.of_nat (length servers)) in
  if n =? 0 then Panic DivideByZero
  else
    let idx := GoInt.u64 (newVal - 1) mod n in
    match servers !! Z.to_nat idx with
    | Some s => Ok s
    | None => Panic IndexOutOfRange
    end.

Definition Next (r : RoundRobinBalancer) : result (string * RoundRobinBalancer) :=
  if decide (length (servers r) = 0%nat) then Ok (""%string, r)
  else
    let newVal := GoInt.u64 (index r + 1) in
    let r1 := {| servers := servers r; index := newVal |} in
    s ← select (servers r) newVal;
    Ok (s, r1).

(** The balancer after [k] calls, and what the [k]-th call returns
    (calls are numbered from 1). *)
Definition after_calls (k : N) (r : RoundRobinBalancer) : result RoundRobinBalancer :=
  N.iter k (fun st => r1 ← st; snd <$> Next r1) (Ok r).

Definition kth_call (k : N) (r : RoundRobinBalancer) : result string :=
  r1 ← after_calls (k - 1) r;
  fst <$> Next r1.

End RoundRobin.

(** ** Plain round-robin, package [backend] *)

Module BackendRoundRobin.

Record RoundRobinBalancer : Type := mkBalancer {
  servers : list string;
  index : Z
}.

(** The constructor copies the slice, so the list is its own value. *)
Definition NewRoundRobinBalancer (servers : list string)
  : result RoundRobinBalancer :=
  if decide (length servers = 0%nat) then Panic ErrServersEmpty
  else Ok {| servers := servers; index := 0 |}.

Definition Next (r : RoundRobinBalancer) : result (string * RoundRobinBalancer) :=
  let newVal := GoInt.u64 (index r + 1) in
  let r1 := {| servers := servers r; index := newVal |} in
  s ← RoundRobin.select (servers r) newVal;
  Ok (s, r1).

End BackendRoundRobin.

(** ** The nodes of the tests *)

Module SmoothExamples.
Import Smooth.

(** Three nodes [a], [b], [c] at the addresses 0, 1, 2, with accumulators
    at 0 and the given weights. *)
Definition heap3 (wa wb wc : Z) : gmap nat Node :=
  <[0%nat := mkNode "a" 0 wa]>
    (<[1%nat := mkNode "b" 0 wb]> (<[2%nat := mkNode "c" 0 wc]> ∅)).

Definition h511 : gmap nat Node := heap3 5 1 1.
Definition h321 : gmap nat Node := heap3 3 2 1.
Definition ns511 : list nat := [0; 1; 2]%nat.

(** The servers returned by [k] calls, by name. *)
Definition name_of (h : gmap nat Node) (b : option nat) : string :=
  match b with
  | Some p => match h !! p with Some n => server n | None => "" end
  | None => ""
  end.

Definition names (k : nat) (h : gmap nat Node) (ns : list nat)
  : result (list string) :=
  match calls k (mkBalancer ns) h with
  | Ok (sel, h1) => Ok (map (name_of h1) sel)
  | Panic e => Panic e
  end.

(** How often each entry of [ns] is returned by [k] calls. *)
Definition counts (k : nat) (h : gmap nat Node) (ns : list nat)
  : result (list nat) :=
  match calls k (mkBalancer ns) h with
  | Ok (sel, _) => Ok (map (fun p => times_selected p sel) ns)
  | Panic e => Panic e
  end.

(** The exact sum and the [int] sum of the accumulators after one call. *)
Definition sums_after_Next (h : gmap nat Node) (ns : list nat)
  : result (Z * Z) :=
  match Next (mkBalancer ns) h with
  | Ok (_, h1) => Ok (sumZ (cur h1) ns, sum_int (cur h1) ns 0)
  | Panic e => Panic e
  end.

(** A node whose accumulator was set to [MaxInt64] before construction,
    next to a fresh one. *)
Definition heap_high : gmap nat Node :=
  <[0%nat := mkNode "a" GoInt.max_int 1]> (<[1%nat := mkNode "b" 0 1]> ∅).

End SmoothExamples.

(** ** Uniform random, package [balance] *)

Module Random.

(** The balancer keeps the caller's slice; [rng] is the generator at its
    present state, as in [RandomWeight]. *)
Record RandomBalancer : Type := mkBalancer {
  servers : list string;
  rng : Z -> Z
}.

Definition NewRandomBalancer (servers : list string) (seeded : Z -> Z)
  : RandomBalancer :=
  {| servers := servers; rng := seeded |}.

(** [r.servers[idx]]: an [int] index outside the slice panics. *)
Definition at_index (servers : list string) (idx : Z) : result string :=
  if idx <? 0 then Panic IndexOutOfRange
  else
    match servers !! Z.to_nat idx with
    | Some s => Ok s
    | None => Panic IndexOutOfRange
    end.

Definition Next (r : RandomBalancer) : result string :=
  if decide (length (servers r) = 0%nat) then Ok ""%string
  else
    idx ← RandomWeight.Intn (rng r) (Z.of_nat (length (servers r)));
    at_index (servers r) idx.

End Random.

(** ** Runs of the plain round-robin *)

Module RoundRobinRuns.
Import RoundRobin.

(** [m] consecutive calls: what they return, in call order, and the
    balancer they leave. *)
Fixpoint calls (m : nat) (r : RoundRobinBalancer)
  : result (list string * RoundRobinBalancer) :=
  match m with
  | O => Ok ([], r)
  | S m' =>
      '(out, r1) ← calls m' r;
      '(s, r2) ← Next r1;
      Ok (out ++ [s], r2)
  end.

End RoundRobinRuns.

(** ** What a call may change in the heap *)

Module SmoothFrame.
Import Smooth.

(** [h'] differs from [h] at most in the [current] fields of its nodes:
    the same addresses are allocated, with the same server and weight. *)
Definition only_current (h h' : gmap nat Node) : Prop :=
  forall p,
    match h !! p with
    | Some n => exists c, h' !! p = Some (set_current n c)
    | None => h' !! p = None
    end.

(** The accumulator of [p] once the loop of [Next] has raised it. *)
Definition raised (h : gmap nat Node) (p : nat) : Z :=
  GoInt.wrap (cur h p + wt h p).

End SmoothFrame.

(** * Facts about machine integers *)

Module GoIntFacts.
Import GoInt.

Lemma wrap_exact z : in_range z -> wrap z = z.
Proof.
  unfold in_range, wrap, min_int, max_int, half_modulus, modulus.
  intros Hz. rewrite Z.mod_small; lia.
Qed.

Lemma wrap_in_range z : in_range (wrap z).
Proof.
  unfold in_range, wrap, min_int, max_int, half_modulus, modulus.
  pose proof (Z.mod_pos_bound (z + 9223372036854775808) 18446744073709551616).
  lia.
Qed.

Lemma wrap_add_l a b : wrap (wrap a + b) = wrap (a + b).
Proof.
  unfold wrap. f_equal.
  replace ((a + half_modulus) mod modulus - half_modulus + b + half_modulus)
    with ((a + half_modulus) mod modulus + b) by lia.
  rewrite Zplus_mod_idemp_l. f_equal. lia.
Qed.

Lemma wrap_add_r a b : wrap (a + wrap b) = wrap (a + b).
Proof. rewrite (Z.add_comm a), wrap_add_l. f_equal. lia. Qed.

Lemma wrap_sub_l a b : wrap (wrap a - b) = wrap (a - b).
Proof. unfold Z.sub. apply wrap_add_l. Qed.

Lemma wrap_sub_r a b : wrap (a - wrap b) = wrap (a - b).
Proof.
  unfold wrap. f_equal.
  replace (a - ((b + half_modulus) mod modulus - half_modulus) + half_modulus)
    with (a + 2 * half_modulus - (b + half_modulus) mod modulus) by lia.
  rewrite Zminus_mod_idemp_r. f_equal. lia.
Qed.

Lemma wrap_idemp z : wrap (wrap z) = wrap z.
Proof. apply wrap_exact, wrap_in_range. Qed.

Lemma wrap_0 : wrap 0 = 0.
Proof. reflexivity. Qed.

Lemma u64_small z : 0 <= z < modulus -> u64 z = z.
Proof. intros Hz. unfold u64. apply Z.mod_small. lia. Qed.

Lemma u64_add_l a b : u64 (u64 a + b) = u64 (a + b).
Proof. unfold u64. apply Zplus_mod_idemp_l. Qed.

Lemma u64_sub_l a b : u64 (u64 a - b) = u64 (a - b).
Proof. unfold u64. apply Zminus_mod_idemp_l. Qed.

End GoIntFacts.

(** * Plain round-robin *)

Module RoundRobinFacts.
Import GoInt GoIntFacts RoundRobin.

Lemma select_ok (ss : list string) (v : Z) :
  ss <> [] -> slice_len_ok ss ->
  exists s, select ss v = Ok s /\
    ss !! Z.to_nat (u64 (v - 1) mod Z.of_nat (length ss)) = Some s.
Proof.
  intros Hne Hlen. unfold select.
  assert (0 < Z.of_nat (length ss)) as Hpos by (destruct ss; [done | simpl; lia]).
  rewrite (u64_small (Z.of_nat (length ss)))
    by (unfold slice_len_ok, max_int in Hlen; unfold modulus; lia).
  destruct (Z.eqb_spec (Z.of_nat (length ss)) 0) as [? | _]; [lia |].
  pose proof (Z.mod_pos_bound (u64 (v - 1)) (Z.of_nat (length ss)) Hpos) as Hb.
  destruct (lookup_lt_is_Some_2 ss (Z.to_nat (u64 (v - 1) mod Z.of_nat (length ss))))
    as [s Hs]; [lia |].
  exists s. by rewrite Hs.
Qed.

Lemma Next_ok (ss : list string) (i : Z) :
  ss <> [] -> slice_len_ok ss ->
  exists s, Next (mkBalancer ss i) = Ok (s, mkBalancer ss (u64 (i + 1))) /\
    ss !! Z.to_nat (u64 i mod Z.of_nat (length ss)) = Some s.
Proof.
  intros Hne Hlen. unfold Next. simpl.
  destruct (decide (length ss = 0%nat)) as [H0 | _];
    [by destruct ss |].
  destruct (select_ok ss (u64 (i + 1)) Hne Hlen) as (s & Hsel & Hs).
  exists s. rewrite Hsel. split; [done |].
  rewrite u64_sub_l in Hs. by replace (i + 1 - 1) with i in Hs by lia.
Qed.

Lemma after_calls_state (ss : list string) (k : N) :
  ss <> [] -> slice_len_ok ss ->
  after_calls k (mkBalancer ss 0) = Ok (mkBalancer ss (u64 (Z.of_N k))).
Proof.
  intros Hne Hlen. unfold after_calls.
  induction k as [| k IH] using N.peano_ind; [done |].
  rewrite N.iter_succ, IH. simpl.
  destruct (Next_ok ss (u64 (Z.of_N k)) Hne Hlen) as (s & -> & _). simpl.
  rewrite u64_add_l. do 3 f_equal. lia.
Qed.

(** What the [k]-th call returns, for every [k]: the counter has wrapped
    [k / 2^64] times by then. *)
Lemma kth_call_spec (ss : list string) (k : N) :
  ss <> [] -> slice_len_ok ss -> (1 <= k)%N ->
  exists s, kth_call k (mkBalancer ss 0) = Ok s /\
    ss !! Z.to_nat (u64 (Z.of_N k - 1) mod Z.of_nat (length ss)) = Some s.
Proof.
  intros Hne Hlen Hk. unfold kth_call.
  rewrite after_calls_state by done. simpl.
  destruct (Next_ok ss (u64 (Z.of_N (k - 1))) Hne Hlen) as (s & -> & Hs).
  exists s. split; [done |].
  unfold u64 in Hs. rewrite Z.mod_mod in Hs by (unfold modulus; lia).
  unfold u64. by replace (Z.of_N k - 1) with (Z.of_N (k - 1)) by lia.
Qed.

Lemma after_calls_empty (k : N) (i : Z) :
    after_calls k (mkBalancer [] i) = Ok (mkBalancer [] i).
Proof.
  unfold after_calls.
  induction k as [| k IH] using N.peano_ind; [done |].
  by rewrite N.iter_succ, IH.
Qed.

(** C3, as amended: from a fresh balancer over [N >= 1] servers, the
    [k]-th [Next] call (counted from 1) returns
    [servers[((k-1) mod 2^64) mod N]]; for [k <= 2^64], that is, until the
    [uint64] counter wraps, this is [servers[(k-1) mod N]], the sequence
    has period [N], the first [N] calls return the servers once each in
    list order, and call [N+1] returns the first server again. *)
Theorem round_robin_sequence (ss : list string) :
  ss <> [] -> slice_len_ok ss ->
  let r0 := mkBalancer ss 0 in
  let n := Z.of_nat (length ss) in
  NewRoundRobinBalancer ss = Ok r0 /\
  (forall k, (1 <= k)%N ->
     exists s, kth_call k r0 = Ok s /\
       ss !! Z.to_nat (((Z.of_N k - 1) mod modulus) mod n) = Some s) /\
  (forall k, (1 <= k)%N -> Z.of_N k <= modulus ->
     exists s, kth_call k r0 = Ok s /\
       ss !! Z.to_nat ((Z.of_N k - 1) mod n) = Some s) /\
  (forall k, (1 <= k)%N -> Z.of_N k + n <= modulus ->
     kth_call (k + N.of_nat (length ss)) r0 = kth_call k r0) /\
  (forall i s, ss !! i = Some s -> kth_call (N.of_nat i + 1) r0 = Ok s) /\
  (forall s, ss !! 0%nat = Some s ->
     kth_call (N.of_nat (length ss) + 1) r0 = Ok s).
Proof.
  intros Hne Hlen r0 n.
  assert (0 < n) as Hn by (subst n; destruct ss; [done | simpl; lia]).
  assert (n < modulus) as Hnm
    by (subst n; unfold slice_len_ok, max_int in Hlen; unfold modulus; lia).
  assert (forall k, (1 <= k)%N -> Z.of_N k <= modulus ->
     exists s, kth_call k r0 = Ok s /\
       ss !! Z.to_nat ((Z.of_N k - 1) mod n) = Some s) as Hlow.
  { intros k Hk Hkm.
    destruct (kth_call_spec ss k Hne Hlen Hk) as (s & Hcall & Hs).
    exists s. split; [done |].
    by rewrite u64_small in Hs by lia. }
  split; [done |]. split; [| split; [done |]; split; [| split]].
  - intros k Hk. apply (kth_call_spec ss k Hne Hlen Hk).
  - intros k Hk Hkm.
    destruct (Hlow (k + N.of_nat (length ss))%N) as (s1 & -> & Hs1); [lia | lia |].
    destruct (Hlow k Hk) as (s2 & -> & Hs2); [lia |].
    replace (Z.of_N (k + N.of_nat (length ss)) - 1)
      with (Z.of_N k - 1 + 1 * n) in Hs1 by lia.
    rewrite Z_mod_plus_full in Hs1. congruence.
  - intros i s Hi.
    pose proof (lookup_lt_Some _ _ _ Hi) as Hlt.
    destruct (Hlow (N.of_nat i + 1)%N) as (s1 & -> & Hs1); [lia | lia |].
    replace (Z.of_N (N.of_nat i + 1) - 1) with (Z.of_nat i) in Hs1 by lia.
    rewrite Z.mod_small, Nat2Z.id in Hs1 by lia. congruence.
  - intros s Hs.
    destruct (Hlow (N.of_nat (length ss) + 1)%N) as (s1 & -> & Hs1); [lia | lia |].
    replace (Z.of_N (N.of_nat (length ss) + 1) - 1) with n in Hs1 by lia.
    rewrite Z_mod_same_full in Hs1. change (Z.to_nat 0) with 0%nat in Hs1.
    congruence.
Qed.

(** The example of the tests: calls 1 to 6 over three servers. *)
Lemma round_robin_sequence_witness :
  let ss := ["s1"; "s2"; "s3"]%string in
  ss <> [] /\ slice_len_ok ss /\
  kth_call 1 (mkBalancer ss 0) = Ok "s1"%string /\
  kth_call 2 (mkBalancer ss 0) = Ok "s2"%string /\
  kth_call 3 (mkBalancer ss 0) = Ok "s3"%string /\
  kth_call 4 (mkBalancer ss 0) = Ok "s1"%string /\
  kth_call 5 (mkBalancer ss 0) = Ok "s2"%string.
Proof.
  intros ss.
  assert (ss <> []) as Hne by done.
  assert (slice_len_ok ss) as Hlen by (unfold slice_len_ok, max_int; simpl; lia).
  destruct (round_robin_sequence ss Hne Hlen) as (_ & _ & _ & Hper & Hfst & Hwrap).
  split; [done |]. split; [done |].
  split; [exact (Hfst 0%nat _ eq_refl) |].
  split; [exact (Hfst 1%nat _ eq_refl) |].
  split; [exact (Hfst 2%nat _ eq_refl) |].
  split; [exact (Hwrap _ eq_refl) |].
  rewrite <- (Hfst 1%nat "s2"%string eq_refl).
  apply (Hper 2%N); [lia | unfold modulus; simpl; lia].
Defined.

(** C3 as stated fails once the counter has wrapped: over three servers,
    call [2^64 + 1] returns the first server, where
    [servers[(k-1) mod 3]] is the second; it also repeats call [2^64]. *)
Lemma round_robin_wrap_counterexample :
  let ss := ["s1"; "s2"; "s3"]%string in
  let k := 18446744073709551617%N in
  kth_call k (mkBalancer ss 0) = Ok "s1"%string /\
  ss !! Z.to_nat ((Z.of_N k - 1) mod 3) = Some "s2"%string /\
  kth_call (k - 1) (mkBalancer ss 0) = Ok "s1"%string.
Proof.
  intros ss k.
  assert (ss <> []) as Hne by done.
  assert (slice_len_ok ss) as Hlen by (unfold slice_len_ok, max_int; simpl; lia).
  destruct (kth_call_spec ss k Hne Hlen) as (s & Hs & Hi); [done |].
  destruct (kth_call_spec ss (k - 1) Hne Hlen) as (s' & Hs' & Hi'); [done |].
  vm_compute in Hi. vm_compute in Hi'.
  split; [congruence |]. split; [reflexivity | congruence].
Qed.

(** C7, as amended: package [balance] does not enforce [N >= 1] at
    construction.  [NewRoundRobinBalancer] accepts every list, and on the
    empty list each [Next] call returns the empty-string sentinel and
    leaves the counter alone.  It is the copy in package [backend] whose
    constructor panics, exactly on the empty list. *)
Theorem round_robin_empty_is_sentinel :
  (forall ss, NewRoundRobinBalancer ss = Ok (mkBalancer ss 0)) /\
  (forall i, Next (mkBalancer [] i) = Ok (""%string, mkBalancer [] i)) /\
  (forall k, kth_call k (mkBalancer [] 0) = Ok ""%string) /\
  (forall ss, panics (BackendRoundRobin.NewRoundRobinBalancer ss) <-> ss = []).
Proof.
  split; [done |]. split; [done |]. split.
  - intros k. unfold kth_call. by rewrite after_calls_empty.
  - intros ss. unfold panics, BackendRoundRobin.NewRoundRobinBalancer.
    destruct ss as [| s ss]; simpl.
    + split; [done | intros _; by eexists].
    + split; [intros [e He]; done | done].
Qed.

(** C7 as stated fails: constructing over no servers returns a balancer. *)
Lemma round_robin_empty_constructs :
  NewRoundRobinBalancer [] = Ok (mkBalancer [] 0) /\
  ~ panics (NewRoundRobinBalancer []) /\
  Next (mkBalancer [] 0) = Ok (""%string, mkBalancer [] 0).
Proof.
  split; [done |]. split; [| done]. by intros [e He].
Qed.

End RoundRobinFacts.

(** * Weighted random *)

Module RandomWeightFacts.
Import GoInt GoIntFacts RandomWeight.

Lemma sum_weights_wrap (ss : list Server) (a : Z) :
  sum_weights ss (wrap a) = wrap (a + total ss).
Proof.
  revert a. induction ss as [| s ss IH]; intros a; simpl.
  - by rewrite Z.add_0_r.
  - unfold add. rewrite wrap_add_l, IH. f_equal. lia.
Qed.

(** The total [Next] computes is the exact total, wrapped once. *)
Lemma sum_weights_total (ss : list Server) :
  sum_weights ss 0 = wrap (total ss).
Proof. rewrite <- wrap_0 at 1. by rewrite sum_weights_wrap. Qed.

Lemma magnitude_nonneg (ss : list Server) : 0 <= magnitude ss.
Proof. induction ss as [| s ss IH]; simpl; lia. Qed.

Lemma total_magnitude (ss : list Server) :
  - magnitude ss <= total ss <= magnitude ss.
Proof. induction ss as [| s ss IH]; simpl; lia. Qed.

Lemma sum_weights_exact (ss : list Server) :
  magnitude ss <= max_int -> sum_weights ss 0 = total ss.
Proof.
  intros Hm. rewrite sum_weights_total. apply wrap_exact.
  pose proof (total_magnitude ss). unfold in_range, min_int, max_int in *. lia.
Qed.

Lemma cumulative_0 (s : Server) (ss : list Server) :
  cumulative (s :: ss) 0 = Weight s.
Proof. unfold cumulative. simpl. lia. Qed.

Lemma cumulative_S (s : Server) (ss : list Server) (i : nat) :
  cumulative (s :: ss) (S i) = Weight s + cumulative ss i.
Proof. reflexivity. Qed.

(** While nothing wraps, the loop of [Next] is the walk over the integers
    of the spec; it stops inside the list, at an entry of positive
    weight. *)
Lemma walk_exact (ss : list Server) (idx : Z) :
  magnitude ss <= max_int -> 0 <= idx < total ss ->
  exists s, walk ss idx = Some s /\ spec_walk ss idx = Some s /\
    0 < Weight s /\ s ∈ ss.
Proof.
  revert idx. induction ss as [| s ss IH]; intros idx Hm Hidx; simpl in *.
  - lia.
  - pose proof (magnitude_nonneg ss) as Hnn.
    pose proof (total_magnitude ss) as Htm.
    unfold sub. rewrite wrap_exact
      by (unfold in_range, min_int, max_int in *; lia).
    destruct (Z.ltb_spec (idx - Weight s) 0) as [Hneg | Hpos].
    + exists s. repeat split; [lia | apply list_elem_of_here].
    + destruct (IH (idx - Weight s)) as (s' & Hw & Hsw & Hpos' & Hin);
        [lia | lia |].
      exists s'. repeat split; [done | done | done |].
      by apply list_elem_of_further.
Qed.

(** The walk of the spec stops at the first entry whose cumulative weight
    exceeds the draw. *)
Lemma spec_walk_first (ss : list Server) (r : Z) (s : Server) :
  spec_walk ss r = Some s ->
  exists i, ss !! i = Some s /\ first_exceeding ss r i.
Proof.
  revert r. induction ss as [| s0 ss IH]; intros r Hw; simpl in Hw; [done |].
  destruct (Z.ltb_spec (r - Weight s0) 0) as [Hneg | Hpos].
  - injection Hw as <-. exists 0%nat. split; [done |].
    split; [rewrite cumulative_0; lia | intros j Hj; lia].
  - destruct (IH _ Hw) as (i & Hi & Hlt & Hle).
    exists (S i). split; [done |]. split.
    + rewrite cumulative_S. lia.
    + intros [| j] Hj; [rewrite cumulative_0; lia |].
      rewrite cumulative_S. specialize (Hle j). lia.
Qed.

Lemma first_exceeding_unique (ss : list Server) (r : Z) (i j : nat) :
  first_exceeding ss r i -> first_exceeding ss r j -> i = j.
Proof.
  intros [Hi Hi'] [Hj Hj'].
  destruct (Nat.lt_trichotomy i j) as [Hlt | [Heq | Hgt]]; [| done |].
  - specialize (Hj' i Hlt). lia.
  - specialize (Hi' j Hgt). lia.
Qed.

(** If the loop of [Next] runs to its end, the last value of [idx], which
    is the draw minus the total up to wrapping, is not negative. *)
Lemma walk_falls_through (ss : list Server) (idx : Z) :
  walk ss idx = None -> ss = [] \/ 0 <= wrap (idx - total ss).
Proof.
  revert idx. induction ss as [| s ss IH]; intros idx Hw; [by left |].
  right. simpl in *.
  destruct (Z.ltb_spec (sub idx (Weight s)) 0) as [Hneg | Hpos]; [done |].
  destruct (IH _ Hw) as [-> | Hge].
  - simpl. unfold sub in Hpos.
    by replace (idx - (Weight s + 0)) with (idx - Weight s) by lia.
  - unfold sub in Hge. rewrite wrap_sub_l in Hge.
    by replace (idx - (Weight s + total ss)) with (idx - Weight s - total ss) by lia.
Qed.

Lemma walk_returns (ss : list Server) (idx : Z) :
  0 < sum_weights ss 0 -> 0 <= idx < sum_weights ss 0 ->
  exists s, walk ss idx = Some s.
Proof.
  intros HT Hidx.
  destruct (walk ss idx) as [s |] eqn:Hw; [by exists s |].
  exfalso. destruct (walk_falls_through _ _ Hw) as [-> | Hge].
  - simpl in HT. lia.
  - rewrite sum_weights_total in *.
    rewrite <- wrap_sub_r in Hge.
    pose proof (wrap_in_range (total ss)) as Hr.
    rewrite wrap_exact in Hge
      by (unfold in_range, min_int, max_int in *; lia).
    lia.
Qed.

Lemma Next_unfold (r : RandomWeightBalancer) :
  0 < sum_weights (servers r) 0 ->
  Next r =
    match walk (servers r) (rng r (sum_weights (servers r) 0)) with
    | Some s => Ok (Addr s)
    | None =>
        match servers r !! 0%nat with
        | Some s => Ok (Addr s)
        | None => Panic IndexOutOfRange
        end
    end.
Proof.
  intros HT. unfold Next.
  destruct (decide (length (servers r) = 0%nat)) as [H0 | _].
  - destruct (servers r); [simpl in HT; lia | done].
  - destruct (Z.leb_spec (sum_weights (servers r) 0) 0) as [? | _]; [lia |].
    unfold Intn.
    destruct (Z.leb_spec (sum_weights (servers r) 0) 0) as [? | _]; [lia |].
    done.
Qed.

(** C2, as amended: when the magnitudes of the weights sum to at most
      [MaxInt64] (so that no [int] operation of [Next] wraps) and the total
      weight [T] is positive, then for the draw [d] in [[0, T)] that [Intn]
      returns, [Next] returns the address of the first entry, in list order,
      whose cumulative weight up to and including itself exceeds [d]; that
      entry is the one at which the walk that subtracts each weight from [d]
      first turns negative. *)
Theorem weighted_random_first_exceeding (r : RandomWeightBalancer) :
  rng_ok (rng r) ->
  magnitude (servers r) <= max_int ->
  0 < total (servers r) ->
  let T := total (servers r) in
  let d := rng r T in
  sum_weights (servers r) 0 = T /\
  0 <= d < T /\
  exists i s,
    servers r !! i = Some s /\
    first_exceeding (servers r) d i /\
    Next r = Ok (Addr s) /\
    spec_walk (servers r) d = Some s.
Proof.
  intros Hg Hm HT T d.
  pose proof (sum_weights_exact _ Hm) as Hsum.
  assert (0 <= d < T) as Hd by (apply Hg; done).
  destruct (walk_exact (servers r) d Hm Hd) as (s & Hw & Hsw & _ & _).
  destruct (spec_walk_first _ _ _ Hsw) as (i & Hi & Hfirst).
  split; [done |]. split; [done |].
  exists i, s. repeat split; try done; try apply Hfirst.
  rewrite Next_unfold by lia. rewrite Hsum. fold T. fold d. by rewrite Hw.
Qed.

Lemma weighted_random_first_exceeding_witness :
  let g := fun n => 15 mod n in
  let r := mkBalancer [mkServer "a" 10; mkServer "b" 20; mkServer "c" 30] g in
  rng_ok g /\ magnitude (servers r) <= max_int /\ 0 < total (servers r) /\
  first_exceeding (servers r) 15 1 /\ Next r = Ok "b"%string.
Proof.
  intros g r.
  assert (rng_ok g) as Hg by (intros n Hn; apply Z.mod_pos_bound; lia).
  assert (magnitude (servers r) <= max_int) as Hm by (vm_compute; discriminate).
  assert (0 < total (servers r)) as HT by reflexivity.
  destruct (weighted_random_first_exceeding r Hg Hm HT)
    as (_ & _ & i & s & Hi & Hfirst & HNext & _).
  assert (first_exceeding (servers r) 15 1) as H1.
  { split; [reflexivity |]. intros j Hj. assert (j = 0%nat) as -> by lia.
    vm_compute. discriminate. }
  split; [exact Hg |]. split; [exact Hm |]. split; [exact HT |].
  split; [exact H1 |].
  change (rng r (total (servers r))) with 15 in Hfirst.
  assert (i = 1%nat) as -> by (eapply first_exceeding_unique; done).
  injection Hi as <-. exact HNext.
Defined.

(** C2 as stated fails when the walk overflows: the total is 1 and the
    draw is 0, the first entry whose cumulative weight exceeds 0 is the
    third, and [Next] returns the first. *)
Lemma weighted_random_walk_overflow :
  let g := fun _ : Z => 0 in
  let ss := [mkServer "a" min_int; mkServer "b" max_int; mkServer "c" 2] in
  total ss = 1 /\ sum_weights ss 0 = 1 /\ g 1 = 0 /\
  first_exceeding ss 0 2 /\
  spec_walk ss 0 = Some (mkServer "c" 2) /\
  Next (mkBalancer ss g) = Ok "a"%string.
Proof.
  intros g ss. repeat split.
  intros j Hj. assert (j = 0 \/ j = 1)%nat as [-> | ->] by lia;
    vm_compute; discriminate.
Qed.

(** C5, as amended: if the list is empty, or the total that [Next]
    computes in [int] arithmetic is at most 0, which is the case whenever
    the exact total of the weights lies between [MinInt64] and 0, then
    [Next] returns the empty string and does not panic. *)
Theorem weighted_random_zero_total (r : RandomWeightBalancer) :
  servers r = [] \/
  sum_weights (servers r) 0 <= 0 \/
  min_int <= total (servers r) <= 0 ->
  Next r = Ok ""%string.
Proof.
  intros H.
  assert (sum_weights (servers r) 0 <= 0) as Hle.
  { destruct H as [-> | [H | H]]; [done | done |].
    rewrite sum_weights_total, wrap_exact;
      unfold in_range, min_int, max_int in *; lia. }
  unfold Next.
  destruct (decide (length (servers r) = 0%nat)); [done |].
  by destruct (Z.leb_spec (sum_weights (servers r) 0) 0); [| lia].
Qed.

Lemma weighted_random_zero_total_witness :
  let r := mkBalancer [mkServer "server1" 0; mkServer "server2" (-3)]
             (fun n => n - 1) in
  min_int <= total (servers r) <= 0 /\ Next r = Ok ""%string.
Proof.
  intros r.
  assert (min_int <= total (servers r) <= 0) as H
    by (split; vm_compute; discriminate).
  split; [exact H |].
  apply (weighted_random_zero_total r). right. right. exact H.
Defined.

(** C5 as stated fails when the total underflows: both weights are
    negative, and every call returns the first address. *)
Lemma weighted_random_total_underflow :
  let ss := [mkServer "a" min_int; mkServer "b" (-1)] in
  Forall (fun s => Weight s <= 0) ss /\
  total ss <= 0 /\
  sum_weights ss 0 = max_int /\
  forall g, rng_ok g -> Next (mkBalancer ss g) = Ok "a"%string.
Proof.
  intros ss. split; [| split; [| split]].
  - repeat constructor; vm_compute; discriminate.
  - vm_compute. discriminate.
  - reflexivity.
  - intros g Hg. rewrite Next_unfold by reflexivity.
    change (sum_weights (servers (mkBalancer ss g)) 0) with max_int.
    change (rng (mkBalancer ss g)) with g.
    specialize (Hg max_int eq_refl).
    simpl. unfold sub.
    destruct (Z.ltb_spec (wrap (g max_int - min_int)) 0) as [_ | Hge]; [done |].
    exfalso. revert Hge. unfold wrap, half_modulus, modulus, min_int, max_int in *.
    replace (g 9223372036854775807 - -9223372036854775808 + 9223372036854775808)
      with (g 9223372036854775807 + 1 * 18446744073709551616) by lia.
    rewrite Z_mod_plus_full, Z.mod_small; lia.
Qed.

(** C8, as amended: when the magnitudes of the weights sum to at most
    [MaxInt64] and the total is positive, the entry whose address [Next]
    returns has a positive weight, whatever entries of weight 0 or less
    the list holds. *)
Theorem weighted_random_positive_weight (r : RandomWeightBalancer) :
  rng_ok (rng r) ->
  magnitude (servers r) <= max_int ->
  0 < total (servers r) ->
  exists s,
    s ∈ servers r /\
    walk (servers r) (rng r (sum_weights (servers r) 0)) = Some s /\
    Next r = Ok (Addr s) /\
    0 < Weight s.
Proof.
  intros Hg Hm HT.
  pose proof (sum_weights_exact _ Hm) as Hsum.
  destruct (walk_exact (servers r) (rng r (total (servers r))) Hm)
    as (s & Hw & _ & Hpos & Hin); [by apply Hg |].
  exists s. rewrite Next_unfold by lia. rewrite Hsum, Hw. done.
Qed.

Lemma weighted_random_positive_weight_witness :
  let g := fun n => 3 mod n in
  let r := mkBalancer
             [mkServer "server1" (-10); mkServer "server2" 20; mkServer "z" 0] g in
  rng_ok g /\ magnitude (servers r) <= max_int /\ 0 < total (servers r) /\
  Next r = Ok "server2"%string.
Proof.
  intros g r.
  assert (rng_ok g) as Hg by (intros n Hn; apply Z.mod_pos_bound; lia).
  assert (magnitude (servers r) <= max_int) as Hm by (vm_compute; discriminate).
  assert (0 < total (servers r)) as HT by reflexivity.
  destruct (weighted_random_positive_weight r Hg Hm HT) as (s & _ & Hw & HNext & _).
  split; [exact Hg |]. split; [exact Hm |]. split; [exact HT |].
  vm_compute in Hw. injection Hw as <-. exact HNext.
Defined.

(** C8 as stated fails when the walk overflows: the total is 4, the draw
    is 3, and [Next] returns the entry of weight [MinInt64]. *)
Lemma weighted_random_negative_weight_returned :
  let g := fun n : Z => n - 1 in
  let ss := [mkServer "a" min_int; mkServer "x" 5; mkServer "b" max_int] in
  rng_ok g /\ total ss = 4 /\ sum_weights ss 0 = 4 /\
  walk ss (g 4) = Some (mkServer "a" min_int) /\
  Next (mkBalancer ss g) = Ok "a"%string /\
  Weight (mkServer "a" min_int) <= 0.
Proof.
  intros g ss. split; [intros n Hn; unfold g; lia |].
  repeat split. vm_compute. discriminate.
Qed.

(** C10: whenever the total weight that [Next] computes is positive, the
    walk returns from inside the loop for the draw in [[0, T)], so the
    fallback after the loop is not reached; this holds even where the
    arithmetic wraps. *)
Theorem weighted_random_fallback_unreachable (r : RandomWeightBalancer) :
  rng_ok (rng r) ->
  0 < sum_weights (servers r) 0 ->
  let T := sum_weights (servers r) 0 in
  0 <= rng r T < T /\
  exists s,
    s ∈ servers r /\ walk (servers r) (rng r T) = Some s /\ Next r = Ok (Addr s).
Proof.
  intros Hg HT T.
  assert (0 <= rng r T < T) as Hd by (apply Hg; done).
  split; [done |].
  destruct (walk_returns (servers r) (rng r T) HT Hd) as (s & Hw).
  exists s. split; [| split; [done |]].
  - clear -Hw. revert Hw. generalize (rng r T).
    induction (servers r) as [| s0 ss IH]; intros idx Hw; simpl in Hw; [done |].
    destruct (sub idx (Weight s0) <? 0).
    + injection Hw as ->. apply list_elem_of_here.
    + apply list_elem_of_further. by eapply IH.
  - rewrite Next_unfold by done. fold T. by rewrite Hw.
Qed.

Lemma weighted_random_fallback_unreachable_witness :
  let g := fun n : Z => n - 1 in
  let r := mkBalancer [mkServer "a" 10; mkServer "b" 20] g in
  rng_ok g /\ 0 < sum_weights (servers r) 0 /\
  walk (servers r) 29 = Some (mkServer "b" 20) /\ Next r = Ok "b"%string.
Proof.
  intros g r.
  assert (rng_ok g) as Hg by (intros n Hn; unfold g; lia).
  assert (0 < sum_weights (servers r) 0) as HT by reflexivity.
  destruct (weighted_random_fallback_unreachable r Hg HT) as (_ & s & _ & Hw & HNext).
  split; [exact Hg |]. split; [exact HT |]. split; [reflexivity |].
  vm_compute in Hw. injection Hw as <-. exact HNext.
Defined.

End RandomWeightFacts.

(** * Smooth weighted round-robin *)

Module SmoothFacts.
Import GoInt GoIntFacts Smooth.

(** ** Sums over a slice *)

Lemma sumZ_ext (f g : nat -> Z) (ns : list nat) :
  (forall p, p ∈ ns -> f p = g p) -> sumZ f ns = sumZ g ns.
Proof.
  induction ns as [| p ns IH]; intros H; simpl; [done |].
  rewrite (H p) by apply list_elem_of_here.
  rewrite IH; [done |]. intros q Hq. apply H. by apply list_elem_of_further.
Qed.

Lemma sumZ_lower (f : nat -> Z) (lo : Z) (ns : list nat) :
  (forall p, p ∈ ns -> lo <= f p) -> Z.of_nat (length ns) * lo <= sumZ f ns.
Proof.
  induction ns as [| p ns IH]; intros H; simpl length; simpl sumZ; [lia |].
  pose proof (H p (list_elem_of_here _ _)).
  assert (Z.of_nat (length ns) * lo <= sumZ f ns)
    by (apply IH; intros q Hq; apply H; by apply list_elem_of_further).
  lia.
Qed.

Lemma sumZ_upper (f : nat -> Z) (hi : Z) (ns : list nat) :
  (forall p, p ∈ ns -> f p <= hi) -> sumZ f ns <= Z.of_nat (length ns) * hi.
Proof.
  induction ns as [| p ns IH]; intros H; simpl length; simpl sumZ; [lia |].
  pose proof (H p (list_elem_of_here _ _)).
  assert (sumZ f ns <= Z.of_nat (length ns) * hi)
    by (apply IH; intros q Hq; apply H; by apply list_elem_of_further).
  lia.
Qed.

(** One entry against the others: when every entry is at least [lo]. *)
Lemma sumZ_elem_lower (f : nat -> Z) (lo : Z) (ns : list nat) (p : nat) :
  p ∈ ns -> (forall q, q ∈ ns -> lo <= f q) ->
  f p + (Z.of_nat (length ns) - 1) * lo <= sumZ f ns.
Proof.
  induction ns as [| q ns IH]; intros Hin H; [by apply not_elem_of_nil in Hin |].
  simpl length. simpl sumZ.
  assert (forall q', q' ∈ ns -> lo <= f q') as H'
    by (intros q' Hq'; apply H; by apply list_elem_of_further).
  apply elem_of_cons in Hin as [-> | Hin].
  - pose proof (sumZ_lower f lo ns H'). lia.
  - pose proof (IH Hin H'). pose proof (H q (list_elem_of_here _ _)). lia.
Qed.

Lemma sumZ_not_in (f : nat -> Z) (b : nat) (t : Z) (ns : list nat) :
  b ∉ ns ->
  sumZ (fun p => if decide (p = b) then f p - t else f p) ns = sumZ f ns.
Proof.
  intros Hb. apply sumZ_ext. intros p Hp.
  destruct (decide (p = b)) as [-> | _]; done.
Qed.

(** Taking [t] from one entry of a slice without repetition takes [t]
    from the sum. *)
Lemma sumZ_point (f : nat -> Z) (b : nat) (t : Z) (ns : list nat) :
  NoDup ns -> b ∈ ns ->
  sumZ (fun p => if decide (p = b) then f p - t else f p) ns = sumZ f ns - t.
Proof.
  induction ns as [| q ns IH]; intros Hnd Hin; [by apply not_elem_of_nil in Hin |].
  apply NoDup_cons in Hnd as [Hq Hnd]. simpl.
  apply elem_of_cons in Hin as [-> | Hin].
  - rewrite decide_True by done. rewrite sumZ_not_in by done. lia.
  - rewrite decide_False by (intros ->; done). rewrite IH by done. lia.
Qed.

Lemma sumZ_all_zero (f : nat -> Z) (ns : list nat) :
  sumZ f ns = 0 -> (forall p, p ∈ ns -> 0 <= f p) ->
  forall p, p ∈ ns -> f p = 0.
Proof.
  intros Hsum Hnn p Hp.
  pose proof (sumZ_elem_lower f 0 ns p Hp Hnn). specialize (Hnn p Hp). lia.
Qed.

Lemma sumZ_plus (f g : nat -> Z) (ns : list nat) :
  sumZ (fun p => f p + g p) ns = sumZ f ns + sumZ g ns.
Proof. induction ns as [| p ns IH]; simpl; [lia |]. rewrite IH. lia. Qed.

Lemma sumZ_linear (f g : nat -> Z) (a b : Z) (ns : list nat) :
  sumZ (fun p => a * f p - b * g p) ns = a * sumZ f ns - b * sumZ g ns.
Proof. induction ns as [| p ns IH]; simpl; [lia |]. rewrite IH. lia. Qed.

Lemma wrap_sumZ_congr (f g : nat -> Z) (ns : list nat) :
  (forall p, p ∈ ns -> wrap (f p) = wrap (g p)) ->
  wrap (sumZ f ns) = wrap (sumZ g ns).
Proof.
  induction ns as [| p ns IH]; intros H; simpl; [done |].
  rewrite <- wrap_add_l, <- wrap_add_r.
  rewrite (H p) by apply list_elem_of_here.
  rewrite IH by (intros q Hq; apply H; by apply list_elem_of_further).
  by rewrite wrap_add_l, wrap_add_r.
Qed.

Lemma sum_int_wrap (f : nat -> Z) (ns : list nat) (a : Z) :
  sum_int f ns (wrap a) = wrap (a + sumZ f ns).
Proof.
  revert a. induction ns as [| p ns IH]; intros a; simpl.
  - by rewrite Z.add_0_r.
  - unfold add. rewrite wrap_add_l, IH. f_equal. lia.
Qed.

Lemma sum_int_sumZ (f : nat -> Z) (ns : list nat) :
  sum_int f ns 0 = wrap (sumZ f ns).
Proof. rewrite <- wrap_0 at 1. by rewrite sum_int_wrap. Qed.

(** ** Construction *)

Lemma wt_lookup (h : gmap nat Node) (p : nat) (n : Node) :
  h !! p = Some n -> wt h p = weight n.
Proof. intros H. unfold wt. by rewrite H. Qed.

Lemma cur_lookup (h : gmap nat Node) (p : nat) (n : Node) :
  h !! p = Some n -> cur h p = current n.
Proof. intros H. unfold cur. by rewrite H. Qed.

Lemma weights_cases (h : gmap nat Node) (ns : list nat) :
  Forall (fun p => 0 < wt h p <= maxWeight) ns \/
  Exists (fun p => wt h p <= 0) ns \/
  Exists (fun p => maxWeight < wt h p) ns.
Proof.
  induction ns as [| p ns IH]; [by left |].
  destruct (Z_le_gt_dec (wt h p) 0) as [Hle | Hgt];
    [right; left; by apply Exists_cons_hd |].
  destruct (Z_lt_le_dec maxWeight (wt h p)) as [Hlt | Hle];
    [right; right; by apply Exists_cons_hd |].
  destruct IH as [IH | [IH | IH]].
  - left. apply Forall_cons. split; [lia | done].
  - right; left. by apply Exists_cons_tl.
  - right; right. by apply Exists_cons_tl.
Qed.

Lemma weights_exclusive (h : gmap nat Node) (ns : list nat) :
  Forall (fun p => 0 < wt h p <= maxWeight) ns ->
  Exists (fun p => wt h p <= 0) ns \/ Exists (fun p => maxWeight < wt h p) ns ->
  False.
Proof.
  rewrite Forall_forall. intros Hall [Hex | Hex];
    apply Exists_exists in Hex as (p & Hp & Hbad);
    specialize (Hall p Hp); lia.
Qed.

Lemma validate_ok (h : gmap nat Node) (ns : list nat) (a : Z) :
  allocated h ns ->
  Forall (fun p => 0 < wt h p <= maxWeight) ns ->
  validate h ns (wrap a) = Ok (wrap (a + sumZ (wt h) ns)).
Proof.
  revert a. induction ns as [| p ns IH]; intros a Hal Hok; simpl.
  - by rewrite Z.add_0_r.
  - apply Forall_cons in Hal as [[n Hn] Hal].
    apply Forall_cons in Hok as [Hp Hok].
    unfold deref. rewrite Hn. simpl.
    rewrite (wt_lookup _ _ _ Hn) in *.
    destruct (Z.leb_spec (weight n) 0) as [? | _]; [lia |].
    destruct (Z.gtb_spec (weight n) maxWeight) as [? | _]; [lia |].
    unfold add. rewrite wrap_add_l, IH by done. do 2 f_equal. lia.
Qed.

Lemma validate_panics (h : gmap nat Node) (ns : list nat) (tw : Z) :
  allocated h ns ->
  Exists (fun p => wt h p <= 0) ns \/ Exists (fun p => maxWeight < wt h p) ns ->
  panics (validate h ns tw).
Proof.
  revert tw. induction ns as [| p ns IH]; intros tw Hal Hex.
  - destruct Hex as [Hex | Hex]; by apply Exists_nil in Hex.
  - apply Forall_cons in Hal as [[n Hn] Hal]. simpl.
    unfold deref. rewrite Hn. simpl.
    destruct (Z.leb_spec (weight n) 0) as [_ | Hpos]; [by eexists |].
    destruct (Z.gtb_spec (weight n) maxWeight) as [_ | Hle]; [by eexists |].
    apply IH; [done |].
    rewrite !Exists_cons, (wt_lookup _ _ _ Hn) in Hex.
    destruct Hex as [[? | ?] | [? | ?]]; [lia | by left | lia | by right].
Qed.

Lemma validate_Ok_inv (h : gmap nat Node) (ns : list nat) (tw t : Z) :
  validate h ns tw = Ok t ->
  allocated h ns /\ Forall (fun p => 0 < wt h p <= maxWeight) ns.
Proof.
  revert tw. induction ns as [| p ns IH]; intros tw Hv; simpl in Hv.
  - split; constructor.
  - unfold deref in Hv. destruct (h !! p) as [n |] eqn:Hn; [| done].
    simpl in Hv.
    destruct (Z.leb_spec (weight n) 0) as [? | Hpos]; [done |].
    destruct (Z.gtb_spec (weight n) maxWeight) as [? | Hle]; [done |].
    destruct (IH _ Hv) as [Hal Hok].
    split; apply Forall_cons; (split; [| done]); [by eexists |].
    rewrite (wt_lookup _ _ _ Hn). lia.
Qed.

(** With accepted weights in a slice that fits, the total is exact. *)
Lemma accepted_total_exact (h : gmap nat Node) (ns : list nat) :
  weights_fit ns ->
  Forall (fun p => 0 < wt h p <= maxWeight) ns ->
  sum_int (wt h) ns 0 = sumZ (wt h) ns /\
  Z.of_nat (length ns) <= sumZ (wt h) ns <= max_int.
Proof.
  intros Hfit Hok. rewrite Forall_forall in Hok.
  assert (Z.of_nat (length ns) * 1 <= sumZ (wt h) ns)
    by (apply sumZ_lower; intros p Hp; specialize (Hok p Hp); lia).
  assert (sumZ (wt h) ns <= Z.of_nat (length ns) * maxWeight)
    by (apply sumZ_upper; intros p Hp; specialize (Hok p Hp); lia).
  unfold weights_fit in Hfit.
  split; [| lia].
  rewrite sum_int_sumZ. apply wrap_exact.
  unfold in_range, min_int, max_int in *. lia.
Qed.

Lemma New_unfold (h : gmap nat Node) (ns : list nat) :
  ns <> [] -> allocated h ns ->
  Forall (fun p => 0 < wt h p <= maxWeight) ns ->
  NewSmoothRRBalancer h ns =
    if sum_int (wt h) ns 0 >? maxTotalWeight
    then Panic (ErrTotalExceedsMax (sum_int (wt h) ns 0))
    else Ok (mkBalancer ns).
Proof.
  intros Hne Hal Hok. unfold NewSmoothRRBalancer.
  destruct (decide (length ns = 0%nat)) as [H0 | _]; [by destruct ns |].
  rewrite <- wrap_0 at 1. rewrite validate_ok by done. simpl.
  by rewrite sum_int_sumZ.
Qed.

Lemma New_Ok_inv (h : gmap nat Node) (ns : list nat) (r : smoothRoundRobinBalancer) :
  NewSmoothRRBalancer h ns = Ok r ->
  r = mkBalancer ns /\ ns <> [] /\ allocated h ns /\
  Forall (fun p => 0 < wt h p <= maxWeight) ns /\
  sum_int (wt h) ns 0 <= maxTotalWeight.
Proof.
  intros HNew.
  assert (ns <> []) as Hne by (intros ->; done).
  assert (allocated h ns /\ Forall (fun p => 0 < wt h p <= maxWeight) ns) as [Hal Hok].
  { unfold NewSmoothRRBalancer in HNew.
    destruct (decide (length ns = 0%nat)); [done |].
    destruct (validate h ns 0) as [t | e] eqn:Hv; [| done].
    by apply validate_Ok_inv in Hv. }
  rewrite New_unfold in HNew by done.
  destruct (Z.gtb_spec (sum_int (wt h) ns 0) maxTotalWeight); [done |].
  injection HNew as <-. done.
Qed.

(** C4: over a slice of allocated nodes, [NewSmoothRRBalancer] panics if
    and only if the slice is empty, or a weight is 0 or less, or a weight
    exceeds [maxWeight] (1,000,000), or the total of the weights exceeds
    [maxTotalWeight] (10,000,000), the total being the one the
    constructor adds up, which is the exact one for a slice that fits;
    otherwise it returns the balancer over that slice, whose weights all
    pass these checks. *)
Theorem new_smooth_rr_validation (h : gmap nat Node) (ns : list nat) :
  allocated h ns ->
  (panics (NewSmoothRRBalancer h ns) <->
     ns = [] \/
     Exists (fun p => wt h p <= 0) ns \/
     Exists (fun p => maxWeight < wt h p) ns \/
     maxTotalWeight < sum_int (wt h) ns 0) /\
  (weights_fit ns ->
   (panics (NewSmoothRRBalancer h ns) <->
      ns = [] \/
      Exists (fun p => wt h p <= 0) ns \/
      Exists (fun p => maxWeight < wt h p) ns \/
      maxTotalWeight < sumZ (wt h) ns)) /\
  (~ panics (NewSmoothRRBalancer h ns) ->
   NewSmoothRRBalancer h ns = Ok (mkBalancer ns)) /\
  (forall r, NewSmoothRRBalancer h ns = Ok r ->
     nodes r = ns /\ ns <> [] /\
     Forall (fun p => 0 < wt h p <= maxWeight) ns /\
     sum_int (wt h) ns 0 <= maxTotalWeight /\
     (weights_fit ns -> sumZ (wt h) ns <= maxTotalWeight)).
Proof.
  intros Hal.
  assert (panics (NewSmoothRRBalancer h ns) <->
     ns = [] \/
     Exists (fun p => wt h p <= 0) ns \/
     Exists (fun p => maxWeight < wt h p) ns \/
     maxTotalWeight < sum_int (wt h) ns 0) as Hiff.
  { destruct ns as [| p0 ns0] eqn:Hns; [split; [by left | intros _; by eexists] |].
    rewrite <- Hns in *. assert (ns <> []) as Hne by (rewrite Hns; done).
    clear Hns.
    destruct (weights_cases h ns) as [Hok | Hbad].
    - rewrite New_unfold by done.
      destruct (Z.gtb_spec (sum_int (wt h) ns 0) maxTotalWeight) as [Hgt | Hle].
      + split; [intros _; do 3 right; lia | intros _; by eexists].
      + split; [intros [e He]; done |].
        intros [-> | [Hex | [Hex | Hgt]]]; [done | | | lia];
          exfalso; eapply weights_exclusive; eauto.
    - split; [intros _; right; tauto |]. intros _.
      unfold NewSmoothRRBalancer.
      destruct (decide (length ns = 0%nat)); [by eexists |].
      destruct (validate_panics h ns 0 Hal Hbad) as [e ->]. by eexists. }
  split; [exact Hiff |]. split; [| split].
  - intros Hfit. rewrite Hiff.
    destruct (weights_cases h ns) as [Hok | Hbad]; [| tauto].
    destruct (accepted_total_exact h ns Hfit Hok) as [-> _]. done.
  - intros Hnp.
    destruct (NewSmoothRRBalancer h ns) as [r | e] eqn:HNew;
      [| exfalso; apply Hnp; by eexists].
    by apply New_Ok_inv in HNew as (-> & _).
  - intros r HNew.
    apply New_Ok_inv in HNew as (-> & Hne & _ & Hok & Hle).
    split; [done |]. split; [done |]. split; [done |]. split; [done |].
    intros Hfit. by destruct (accepted_total_exact h ns Hfit Hok) as [<- _].
Qed.

(** ** One call *)

Lemma bind_Ok {A B : Type} (a : A) (f : A -> result B) : Ok a ≫= f = f a.
Proof. reflexivity. Qed.

Lemma bind_Panic {A B : Type} (e : panic) (f : A -> result B) :
  Panic e ≫= f = Panic e.
Proof. reflexivity. Qed.

Lemma deref_Some (h : gmap nat Node) (p : nat) (n : Node) :
  h !! p = Some n -> deref h p = Ok n.
Proof. intros H. unfold deref. by rewrite H. Qed.

Lemma bumped_out (h : gmap nat Node) (ns : list nat) (p : nat) :
  p ∉ ns -> bumped h ns p = h !! p.
Proof. intros Hp. unfold bumped. by rewrite decide_False. Qed.

Lemma bumped_cons (h : gmap nat Node) (ns : list nat) (p q : nat) (n : Node) :
  p ∉ ns -> h !! p = Some n ->
  bumped (<[p := set_current n (add (current n) (weight n))]> h) ns q =
  bumped h (p :: ns) q.
Proof.
  intros Hp Hn. unfold bumped.
  destruct (decide (q = p)) as [-> | Hne].
  - rewrite decide_False by done.
    rewrite decide_True by apply list_elem_of_here.
    by rewrite lookup_insert_eq, Hn.
  - rewrite lookup_insert_ne by done.
    destruct (decide (q ∈ ns)) as [Hin | Hout].
    + by rewrite decide_True by (by apply list_elem_of_further).
    + rewrite decide_False; [done |].
      intros [-> | ?]%elem_of_cons; done.
Qed.

Lemma Next_loop_cons (h : gmap nat Node) (p : nat) (ns : list nat) (tw : Z)
    (best : option nat) :
  Next_loop h (p :: ns) tw best =
    n ← deref h p;
    let n1 := set_current n (add (current n) (weight n)) in
    let h1 := <[p := n1]> h in
    bestNode1 ←
      match best with
      | None => Ok (Some p)
      | Some b =>
          nb ← deref h1 b;
          Ok (if current n1 >? current nb then Some p else Some b)
      end;
    Next_loop h1 ns (add tw (weight n1)) bestNode1.
Proof. reflexivity. Qed.

(** The loop of [Next] over a slice of distinct allocated nodes. *)
Lemma Next_loop_spec (h : gmap nat Node) (ns : list nat) (tw : Z)
    (best : option nat) :
  NoDup ns -> allocated h ns ->
  (forall b, best = Some b -> (b ∉ ns) /\ is_Some (h !! b)) ->
  exists h',
    Next_loop h ns (wrap tw) best =
      Ok (h', wrap (tw + sumZ (wt h) ns), pick (cur h') ns best) /\
    forall p, h' !! p = bumped h ns p.
Proof.
  revert h tw best.
  induction ns as [| p ns IH]; intros h tw best Hnd Hal Hbest.
  - exists h. simpl. rewrite Z.add_0_r. split; [done |].
    intros p. by rewrite bumped_out by apply not_elem_of_nil.
  - apply NoDup_cons in Hnd as [Hp Hnd].
    apply Forall_cons in Hal as [[n Hn] Hal].
    rewrite Next_loop_cons, (deref_Some _ _ _ Hn), bind_Ok.
    cbv beta zeta. simpl pick. simpl sumZ.
    set (n1 := set_current n (add (current n) (weight n))).
    set (h1 := <[p := n1]> h).
    assert (allocated h1 ns) as Hal1.
    { unfold allocated in *. rewrite Forall_forall in *. intros q Hq.
      unfold h1. destruct (decide (q = p)) as [-> | Hne];
        [by rewrite lookup_insert_eq | rewrite lookup_insert_ne by done; by apply Hal]. }
    assert (forall q, wt h1 q = wt h q) as Hwt.
    { intros q. unfold wt, h1. destruct (decide (q = p)) as [-> | Hne];
        [by rewrite lookup_insert_eq, Hn | by rewrite lookup_insert_ne]. }
    set (best1 := match best with
                  | None => Some p
                  | Some b => if current n1 >? cur h1 b then Some p else Some b
                  end).
    assert (match best with
            | None => Ok (Some p)
            | Some b =>
                nb ← deref h1 b;
                Ok (if current n1 >? current nb then Some p else Some b)
            end = Ok best1) as ->.
    { unfold best1. destruct best as [b |]; [| done].
      destruct (Hbest b eq_refl) as [Hb [nb Hnb]].
      assert (b <> p) as Hbp by (intros ->; apply Hb, list_elem_of_here).
      assert (h1 !! b = Some nb) as Hnb1 by (unfold h1; by rewrite lookup_insert_ne).
      rewrite (deref_Some _ _ _ Hnb1), bind_Ok.
      by rewrite (cur_lookup _ _ _ Hnb1). }
    rewrite bind_Ok.
    assert (forall b, best1 = Some b -> (b ∉ ns) /\ is_Some (h1 !! b)) as Hbest1.
    { assert ((p ∉ ns) /\ is_Some (h1 !! p)) as Hpp
        by (split; [done | unfold h1; by rewrite lookup_insert_eq]).
      assert (forall b, best = Some b -> (b ∉ ns) /\ is_Some (h1 !! b)) as Hbb.
      { intros b Hb. destruct (Hbest b Hb) as [Hb1 [nb Hnb]].
        split; [intros ?; apply Hb1; by apply list_elem_of_further |].
        unfold h1. destruct (decide (b = p)) as [-> | Hne];
          [by rewrite lookup_insert_eq | rewrite lookup_insert_ne by done; by eexists]. }
      intros b Hb. unfold best1 in Hb. destruct best as [b0 |].
      - destruct (current n1 >? cur h1 b0); injection Hb as <-; [done | by apply Hbb].
      - by injection Hb as <-. }
    unfold add at 1. rewrite wrap_add_l.
    destruct (IH h1 (tw + weight n1) best1 Hnd Hal1 Hbest1) as (h' & Hloop & Hh').
    exists h'. rewrite Hloop. split.
    + f_equal. f_equal; [f_equal |].
      * rewrite (sumZ_ext (wt h1) (wt h)) by (intros; apply Hwt).
        rewrite (wt_lookup _ _ _ Hn). simpl. f_equal. lia.
      * f_equal. unfold best1.
        assert (cur h' p = current n1) as Hcp.
        { unfold cur. rewrite Hh', bumped_out by done.
          unfold h1. by rewrite lookup_insert_eq. }
        destruct best as [b |]; [| done].
        destruct (Hbest b eq_refl) as [Hb _].
        assert (cur h' b = cur h1 b) as Hcb.
        { unfold cur at 1. rewrite Hh', bumped_out; [done |].
          intros ?; apply Hb; by apply list_elem_of_further. }
        by rewrite Hcp, Hcb.
    + intros q. rewrite Hh'. by apply bumped_cons.
Qed.

(** The first maximum: what [pick] returns is an entry no other entry
    exceeds. *)
Lemma pick_Some (c : nat -> Z) (ns : list nat) (b0 : nat) :
  exists b, pick c ns (Some b0) = Some b /\ (b = b0 \/ b ∈ ns) /\
    c b0 <= c b /\ forall p, p ∈ ns -> c p <= c b.
Proof.
  revert b0. induction ns as [| p ns IH]; intros b0; simpl.
  - exists b0. split; [done |]. split; [by left |]. split; [lia |].
    intros p Hp. by apply not_elem_of_nil in Hp.
  - destruct (Z.gtb_spec (c p) (c b0)) as [Hgt | Hle].
    + destruct (IH p) as (b & Hb & Hin & Hge & Hmax).
      exists b. split; [done |]. split; [| split; [lia |]].
      * right. destruct Hin as [-> | Hin];
          [apply list_elem_of_here | by apply list_elem_of_further].
      * intros q [-> | Hq]%elem_of_cons; [done | by apply Hmax].
    + destruct (IH b0) as (b & Hb & Hin & Hge & Hmax).
      exists b. split; [done |]. split; [| split; [done |]].
      * destruct Hin as [-> | Hin]; [by left | right; by apply list_elem_of_further].
      * intros q [-> | Hq]%elem_of_cons; [lia | by apply Hmax].
Qed.

Lemma pick_None (c : nat -> Z) (ns : list nat) :
  ns <> [] ->
  exists b, pick c ns None = Some b /\ b ∈ ns /\ forall p, p ∈ ns -> c p <= c b.
Proof.
  destruct ns as [| p ns]; [done |]. intros _. simpl.
  destruct (pick_Some c ns p) as (b & Hb & Hin & Hge & Hmax).
  exists b. split; [done |]. split.
  - destruct Hin as [-> | Hin];
      [apply list_elem_of_here | by apply list_elem_of_further].
  - intros q [-> | Hq]%elem_of_cons; [done | by apply Hmax].
Qed.

Section Bumped.
Variables (h h1 : gmap nat Node) (ns : list nat).
Hypothesis Hh1 : forall p, h1 !! p = bumped h ns p.

Lemma bumped_wt (p : nat) : wt h1 p = wt h p.
Proof.
  unfold wt. rewrite Hh1. unfold bumped.
  destruct (decide (p ∈ ns)); [| done]. by destruct (h !! p).
Qed.

Lemma bumped_cur (p : nat) :
  cur h1 p = if decide (p ∈ ns) then wrap (cur h p + wt h p) else cur h p.
Proof.
  unfold cur, wt. rewrite Hh1. unfold bumped.
  destruct (decide (p ∈ ns)); [| done]. by destruct (h !! p).
Qed.

Lemma bumped_is_Some (p : nat) : is_Some (h1 !! p) <-> is_Some (h !! p).
Proof.
  rewrite Hh1. unfold bumped.
  destruct (decide (p ∈ ns)); [| done]. by rewrite fmap_is_Some.
Qed.
End Bumped.

(** One call over a non-empty slice of distinct allocated nodes: it
    returns an entry holding the maximum of the raised accumulators and
    lowers that one by the total. *)
Lemma Next_spec (ns : list nat) (h : gmap nat Node) :
  NoDup ns -> allocated h ns -> ns <> [] ->
  exists b h',
    Next (mkBalancer ns) h = Ok (Some b, h') /\
    b ∈ ns /\
    (forall p, p ∈ ns ->
       wrap (cur h p + wt h p) <= wrap (cur h b + wt h b)) /\
    (forall p, wt h' p = wt h p) /\
    (forall p, is_Some (h' !! p) <-> is_Some (h !! p)) /\
    (forall p, cur h' p =
       if decide (p ∈ ns)
       then if decide (p = b)
            then wrap (wrap (cur h p + wt h p) - wrap (sumZ (wt h) ns))
            else wrap (cur h p + wt h p)
       else cur h p).
Proof.
  intros Hnd Hal Hne.
  destruct (Next_loop_spec h ns 0 None Hnd Hal) as (h1 & Hloop & Hh1); [done |].
  change (wrap 0) with 0 in Hloop. rewrite Z.add_0_l in Hloop.
  destruct (pick_None (cur h1) ns Hne) as (b & Hb & Hin & Hmax).
  rewrite Hb in Hloop.
  assert (is_Some (h1 !! b)) as [nb Hnb].
  { apply (bumped_is_Some h h1 ns Hh1). unfold allocated in Hal.
    rewrite Forall_forall in Hal. by apply Hal. }
  exists b, (<[b := set_current nb (sub (current nb) (wrap (sumZ (wt h) ns)))]> h1).
  split; [| split; [done |]; split; [| split; [| split]]].
  - unfold Next. simpl nodes. rewrite Hloop, bind_Ok.
    by rewrite (deref_Some _ _ _ Hnb), bind_Ok.
  - intros p Hp. specialize (Hmax p Hp).
    rewrite !(bumped_cur h h1 ns Hh1) in Hmax.
    by rewrite !decide_True in Hmax by done.
  - intros p. rewrite <- (bumped_wt h h1 ns Hh1). unfold wt.
    destruct (decide (p = b)) as [-> | Hpb];
      [by rewrite lookup_insert_eq, Hnb | by rewrite lookup_insert_ne].
  - intros p. rewrite <- (bumped_is_Some h h1 ns Hh1).
    destruct (decide (p = b)) as [-> | Hpb];
      [rewrite lookup_insert_eq, Hnb; split; by eexists
      | by rewrite lookup_insert_ne].
  - intros p. destruct (decide (p = b)) as [-> | Hpb].
    + rewrite decide_True by done.
      unfold cur at 1. rewrite lookup_insert_eq. simpl. unfold sub.
      rewrite <- (cur_lookup _ _ _ Hnb), (bumped_cur h h1 ns Hh1).
      by rewrite decide_True by done.
    + unfold cur at 1. rewrite lookup_insert_ne by done.
      fold (cur h1 p). by rewrite (bumped_cur h h1 ns Hh1).
Qed.

(** ** The invariant of a balancer started from zero *)

Lemma accepted_total (W : nat -> Z) (ns : list nat) :
  accepted W ns ->
  1 <= Z.of_nat (length ns) <= sumZ W ns /\ sumZ W ns <= maxTotalWeight.
Proof.
  intros (Hne & _ & HW & HT).
  assert (Z.of_nat (length ns) * 1 <= sumZ W ns)
    by (apply sumZ_lower; intros p Hp; specialize (HW p Hp); lia).
  destruct ns; [done |]. simpl length in *. lia.
Qed.

Lemma steady_bounds (W : nat -> Z) (ns : list nat) (h : gmap nat Node) (p : nat) :
  accepted W ns -> steady W ns h -> p ∈ ns ->
  - maxTotalWeight < cur h p <= maxTotalWeight * maxTotalWeight.
Proof.
  intros Hacc (_ & _ & Hsum & Hlow) Hp.
  destruct (accepted_total W ns Hacc) as [HN HT].
  pose proof (Hlow p Hp) as Hlp.
  pose proof (sumZ_elem_lower (cur h) (1 - sumZ W ns) ns p Hp) as Hup.
  rewrite Hsum in Hup.
  assert (forall q, q ∈ ns -> 1 - sumZ W ns <= cur h q) as Hlo'
    by (intros q Hq; specialize (Hlow q Hq); lia).
  specialize (Hup Hlo').
  assert ((Z.of_nat (length ns) - 1) * (sumZ W ns - 1)
          <= maxTotalWeight * maxTotalWeight)
    by (apply Z.mul_le_mono_nonneg; lia).
  split; [lia | nia].
Qed.

(** One call on such a heap: nothing wraps, the entry returned gives up
    the total, and the invariant is kept. *)
Lemma steady_step (W : nat -> Z) (ns : list nat) (h : gmap nat Node) :
  accepted W ns -> steady W ns h ->
  exists b h',
    Next (mkBalancer ns) h = Ok (Some b, h') /\
    b ∈ ns /\
    steady W ns h' /\
    (forall p, p ∈ ns -> cur h p + W p <= cur h b + W b) /\
    (forall p, p ∈ ns ->
       cur h' p = cur h p + W p - (if decide (p = b) then sumZ W ns else 0)).
Proof.
  intros Hacc Hst.
  pose proof Hacc as (Hne & Hnd & HW & _).
  pose proof Hst as (Hal & Hwt & Hsum & Hlow).
  destruct (accepted_total W ns Hacc) as [HN HT].
  assert (sumZ (wt h) ns = sumZ W ns) as HsumW by (by apply sumZ_ext).
  assert (forall p, p ∈ ns -> wrap (cur h p + wt h p) = cur h p + W p) as Hc1.
  { intros p Hp. rewrite (Hwt p Hp).
    pose proof (steady_bounds W ns h p Hacc Hst Hp).
    specialize (HW p Hp). apply wrap_exact.
    unfold in_range, min_int, max_int, maxTotalWeight, maxWeight in *. lia. }
  destruct (Next_spec ns h Hnd Hal Hne)
    as (b & h' & HNext & Hb & Hmax & Hwt' & Hal' & Hcur').
  rewrite HsumW in Hcur'.
  assert (wrap (sumZ W ns) = sumZ W ns) as HwT
    by (apply wrap_exact;
        unfold in_range, min_int, max_int, maxTotalWeight in *; lia).
  assert (0 < cur h b + W b) as Hpos.
  { assert (sumZ (fun p => cur h p + W p) ns
            <= Z.of_nat (length ns) * (cur h b + W b)) as Hup.
    { apply sumZ_upper. intros p Hp. specialize (Hmax p Hp).
      by rewrite (Hc1 p Hp), (Hc1 b Hb) in Hmax. }
    rewrite sumZ_plus, Hsum in Hup. nia. }
  assert (forall p, p ∈ ns ->
    cur h' p = cur h p + W p - (if decide (p = b) then sumZ W ns else 0)) as Hstep.
  { intros p Hp. rewrite Hcur', decide_True by done.
    rewrite (Hc1 p Hp), HwT.
    destruct (decide (p = b)) as [-> | _]; [| lia].
    rewrite wrap_exact; [lia |].
    pose proof (steady_bounds W ns h b Hacc Hst Hb).
    specialize (HW b Hb).
    unfold in_range, min_int, max_int, maxTotalWeight, maxWeight in *. lia. }
  exists b, h'. split; [done |]. split; [done |].
  split; [| split; [| done]];
    [| intros p Hp; specialize (Hmax p Hp);
       by rewrite (Hc1 p Hp), (Hc1 b Hb) in Hmax].
  split; [| split; [| split]].
  - unfold allocated in *. rewrite Forall_forall in *.
    intros p Hp. apply Hal'. by apply Hal.
  - intros p Hp. rewrite Hwt'. by apply Hwt.
  - rewrite (sumZ_ext (cur h')
      (fun p => if decide (p = b) then (cur h p + W p) - sumZ W ns
                else cur h p + W p)).
    + rewrite sumZ_point by done. rewrite sumZ_plus. lia.
    + intros p Hp. rewrite (Hstep p Hp). destruct (decide (p = b)); lia.
  - intros p Hp. rewrite (Hstep p Hp). specialize (Hlow p Hp).
    specialize (HW p Hp). destruct (decide (p = b)) as [-> | _]; lia.
Qed.

Lemma times_selected_snoc (p b : nat) (sel : list (option nat)) :
  times_selected p (sel ++ [Some b]) =
  (times_selected p sel + (if decide (p = b) then 1 else 0))%nat.
Proof.
  unfold times_selected. rewrite filter_app, length_app. f_equal.
  rewrite filter_cons, filter_nil.
  destruct (decide (p = b)) as [-> | Hne].
  - by rewrite decide_True.
  - rewrite decide_False; [done |]. intros [= ->]. done.
Qed.

(** After [k] calls from the zero state, each accumulator is [k] times
    the weight minus the total for every time its entry was returned. *)
Lemma calls_steady (W : nat -> Z) (ns : list nat) (h0 : gmap nat Node) (k : nat) :
  accepted W ns -> steady W ns h0 ->
  (forall p, p ∈ ns -> cur h0 p = 0) ->
  exists sel h,
    calls k (mkBalancer ns) h0 = Ok (sel, h) /\
    steady W ns h /\
    length sel = k /\
    (forall p, p ∈ ns ->
       cur h p = Z.of_nat k * W p - sumZ W ns * Z.of_nat (times_selected p sel)).
Proof.
  intros Hacc Hst0 Hzero.
  induction k as [| k IH].
  - exists [], h0. split; [done |]. split; [done |]. split; [done |].
    intros p Hp. rewrite (Hzero p Hp). unfold times_selected. simpl. lia.
  - destruct IH as (sel & h & Hcalls & Hst & Hlen & Hcur).
    destruct (steady_step W ns h Hacc Hst) as (b & h' & HNext & Hb & Hst' & _ & Hstep).
    exists (sel ++ [Some b]), h'.
    split; [| split; [done |]; split].
    + simpl. rewrite Hcalls, bind_Ok. simpl. by rewrite HNext, bind_Ok.
    + rewrite length_app. simpl. lia.
    + intros p Hp. rewrite (Hstep p Hp), (Hcur p Hp), times_selected_snoc.
      destruct (decide (p = b)); lia.
Qed.

Lemma sumZ_zero (f : nat -> Z) (ns : list nat) :
  (forall p, p ∈ ns -> f p = 0) -> sumZ f ns = 0.
Proof.
  intros H.
  assert (forall p, p ∈ ns -> 0 <= f p <= 0) as Hz
    by (intros p Hp; rewrite (H p Hp); lia).
  assert (Z.of_nat (length ns) * 0 <= sumZ f ns)
    by (apply sumZ_lower; intros; by apply Hz).
  assert (sumZ f ns <= Z.of_nat (length ns) * 0)
    by (apply sumZ_upper; intros; by apply Hz).
  lia.
Qed.

Lemma New_accepted (h : gmap nat Node) (ns : list nat) (r : smoothRoundRobinBalancer) :
  NoDup ns -> weights_fit ns ->
  NewSmoothRRBalancer h ns = Ok r ->
  r = mkBalancer ns /\ allocated h ns /\ accepted (wt h) ns.
Proof.
  intros Hnd Hfit HNew.
  apply New_Ok_inv in HNew as (-> & Hne & Hal & Hok & Hle).
  destruct (accepted_total_exact h ns Hfit Hok) as [Hex _].
  split; [done |]. split; [done |]. split; [done |]. split; [done |].
  split; [by rewrite Forall_forall in Hok | by rewrite <- Hex].
Qed.

Lemma zero_steady (h : gmap nat Node) (ns : list nat) :
  allocated h ns -> accepted (wt h) ns ->
  (forall p, p ∈ ns -> cur h p = 0) ->
  steady (wt h) ns h.
Proof.
  intros Hal Hacc Hzero.
  destruct (accepted_total _ _ Hacc) as [HN _].
  split; [done |]. split; [done |]. split; [by apply sumZ_zero |].
  intros p Hp. rewrite (Hzero p Hp). lia.
Qed.

(** C1: for a balancer that [NewSmoothRRBalancer] built over distinct
    nodes whose accumulators are 0, the first [T] calls of [Next], [T]
    the total of the weights, return each entry exactly as many times
    as its weight, and leave every accumulator at 0 again. *)
Theorem smooth_rr_exact_period (h : gmap nat Node) (ns : list nat)
    (r : smoothRoundRobinBalancer) :
  NoDup ns -> weights_fit ns ->
  NewSmoothRRBalancer h ns = Ok r ->
  (forall p, p ∈ ns -> cur h p = 0) ->
  exists sel h',
    calls (Z.to_nat (sumZ (wt h) ns)) r h = Ok (sel, h') /\
    length sel = Z.to_nat (sumZ (wt h) ns) /\
    (forall p, p ∈ ns -> 0 < wt h p /\ Z.of_nat (times_selected p sel) = wt h p) /\
    (forall p, p ∈ ns -> cur h' p = 0 /\ wt h' p = wt h p).
Proof.
  intros Hnd Hfit HNew Hzero.
  destruct (New_accepted h ns r Hnd Hfit HNew) as (-> & Hal & Hacc).
  pose proof (zero_steady h ns Hal Hacc Hzero) as Hst0.
  destruct (accepted_total _ _ Hacc) as [HN HT].
  set (W := wt h) in *. set (T := sumZ W ns) in *.
  destruct (calls_steady W ns h (Z.to_nat T) Hacc Hst0 Hzero)
    as (sel & h' & Hcalls & Hst & Hlen & Hcur).
  rewrite Z2Nat.id in Hcur by lia.
  pose proof Hst as (_ & Hwt' & Hsum & Hlow).
  set (cnt := fun p => Z.of_nat (times_selected p sel)) in *.
  assert (forall p, p ∈ ns -> 0 <= W p - cnt p) as Hle.
  { intros p Hp. specialize (Hlow p Hp). rewrite (Hcur p Hp) in Hlow.
    fold T in Hlow. fold (cnt p) in Hlow. nia. }
  assert (sumZ cnt ns = T) as Hcnt.
  { rewrite (sumZ_ext (cur h') (fun p => T * W p - T * cnt p)) in Hsum
      by (intros p Hp; by rewrite (Hcur p Hp)).
    rewrite sumZ_linear in Hsum. fold T in Hsum. nia. }
  assert (forall p, p ∈ ns -> W p - cnt p = 0) as Heq.
  { apply sumZ_all_zero; [| done].
    rewrite (sumZ_ext _ (fun p => 1 * W p - 1 * cnt p)) by (intros; lia).
    rewrite sumZ_linear. fold T. lia. }
  exists sel, h'. split; [done |]. split; [done |]. split.
  - intros p Hp. specialize (Heq p Hp).
    destruct Hacc as (_ & _ & HW & _). specialize (HW p Hp).
    fold (cnt p). lia.
  - intros p Hp. split; [| by apply Hwt'].
    rewrite (Hcur p Hp). specialize (Heq p Hp). fold (cnt p). nia.
Qed.

(** The case of the tests: weights 5, 1, 1 over 7 calls. *)
Lemma smooth_rr_exact_period_witness :
  NoDup SmoothExamples.ns511 /\ weights_fit SmoothExamples.ns511 /\
  NewSmoothRRBalancer SmoothExamples.h511 SmoothExamples.ns511
    = Ok (mkBalancer SmoothExamples.ns511) /\
  (forall p, p ∈ SmoothExamples.ns511 -> cur SmoothExamples.h511 p = 0) /\
  exists sel h',
    calls 7 (mkBalancer SmoothExamples.ns511) SmoothExamples.h511 = Ok (sel, h') /\
    times_selected 0 sel = 5%nat /\
    times_selected 1 sel = 1%nat /\
    times_selected 2 sel = 1%nat.
Proof.
  assert (NoDup SmoothExamples.ns511) as Hnd
    by (compute_done).
  assert (weights_fit SmoothExamples.ns511) as Hfit
    by (vm_compute; discriminate).
  assert (NewSmoothRRBalancer SmoothExamples.h511 SmoothExamples.ns511
          = Ok (mkBalancer SmoothExamples.ns511)) as HNew by (vm_compute; reflexivity).
  assert (forall p, p ∈ SmoothExamples.ns511 -> cur SmoothExamples.h511 p = 0) as Hzero.
  { intros p Hp. unfold SmoothExamples.ns511 in Hp.
    repeat (apply elem_of_cons in Hp as [-> | Hp]; [vm_compute; reflexivity |]).
    by apply not_elem_of_nil in Hp. }
  split; [exact Hnd |]. split; [exact Hfit |]. split; [exact HNew |].
  split; [exact Hzero |].
  destruct (smooth_rr_exact_period _ _ _ Hnd Hfit HNew Hzero)
    as (sel & h' & Hcalls & _ & Hcount & _).
  exists sel, h'.
  assert (forall p w, p ∈ SmoothExamples.ns511 -> wt SmoothExamples.h511 p = Z.of_nat w ->
                      times_selected p sel = w) as Hn.
  { intros p w Hp Hw. destruct (Hcount p Hp) as [_ Hc]. lia. }
  split; [exact Hcalls |].
  split; [apply Hn; [| vm_compute; reflexivity];
          compute_done |].
  split; (apply Hn; [| vm_compute; reflexivity]);
    compute_done.
Defined.

(** ** The sum of the accumulators *)

(** In [int] arithmetic a call adds the total and takes it back. *)
Lemma Next_sum_int (ns : list nat) (h h' : gmap nat Node) (b : option nat) :
  NoDup ns -> allocated h ns ->
  Next (mkBalancer ns) h = Ok (b, h') ->
  sum_int (cur h') ns 0 = sum_int (cur h) ns 0.
Proof.
  intros Hnd Hal HNext.
  destruct (decide (ns = [])) as [-> | Hne]; [done |].
  destruct (Next_spec ns h Hnd Hal Hne) as (b0 & h0 & HNext0 & Hb & _ & _ & _ & Hcur).
  rewrite HNext0 in HNext. injection HNext as <- <-.
  rewrite !sum_int_sumZ.
  rewrite (wrap_sumZ_congr (cur h0)
    (fun p => if decide (p = b0) then (cur h p + wt h p) - sumZ (wt h) ns
              else cur h p + wt h p)).
  - rewrite sumZ_point by done. rewrite sumZ_plus. f_equal. lia.
  - intros p Hp. rewrite Hcur, decide_True by done.
    destruct (decide (p = b0)) as [_ | _]; [| apply wrap_idemp].
    by rewrite wrap_idemp, wrap_sub_r, wrap_sub_l.
Qed.

(** With accepted weights and accumulators within [safe_current], a call
    keeps the exact sum. *)
Lemma Next_sum_exact (ns : list nat) (h h' : gmap nat Node) (b : option nat) :
  allocated h ns -> accepted (wt h) ns ->
  (forall p, p ∈ ns -> - safe_current <= cur h p <= safe_current) ->
  Next (mkBalancer ns) h = Ok (b, h') ->
  sumZ (cur h') ns = sumZ (cur h) ns.
Proof.
  intros Hal Hacc Hsafe HNext.
  pose proof Hacc as (Hne & Hnd & HW & _).
  destruct (accepted_total _ _ Hacc) as [HN HT].
  destruct (Next_spec ns h Hnd Hal Hne) as (b0 & h0 & HNext0 & Hb & _ & _ & _ & Hcur).
  rewrite HNext0 in HNext. injection HNext as <- <-.
  rewrite (sumZ_ext (cur h0)
    (fun p => if decide (p = b0) then (cur h p + wt h p) - sumZ (wt h) ns
              else cur h p + wt h p)).
  - rewrite sumZ_point by done. rewrite sumZ_plus. lia.
  - intros p Hp. rewrite Hcur, decide_True by done.
    specialize (Hsafe p Hp). specialize (HW p Hp).
    unfold safe_current, maxWeight, maxTotalWeight in *.
    rewrite (wrap_exact (cur h p + wt h p))
      by (unfold in_range, min_int, max_int; lia).
    rewrite (wrap_exact (sumZ (wt h) ns))
      by (unfold in_range, min_int, max_int; lia).
    destruct (decide (p = b0)); [| done].
    apply wrap_exact. unfold in_range, min_int, max_int. lia.
Qed.

(** C9: a [Next] call over distinct allocated nodes leaves the sum of
    the accumulators, taken in the [int] arithmetic of the program, as it
    was; for a balancer that the constructor accepted and accumulators of
    magnitude at most [2^62] the exact sum is unchanged as well; and from
    accumulators at 0 the sum is 0 after every call. *)
Theorem smooth_next_keeps_sum (h : gmap nat Node) (r : smoothRoundRobinBalancer) :
  NoDup (nodes r) -> allocated h (nodes r) ->
  (forall b h', Next r h = Ok (b, h') ->
     sum_int (cur h') (nodes r) 0 = sum_int (cur h) (nodes r) 0) /\
  (NewSmoothRRBalancer h (nodes r) = Ok r -> weights_fit (nodes r) ->
   (forall p, p ∈ nodes r -> - safe_current <= cur h p <= safe_current) ->
   exists b h', Next r h = Ok (Some b, h') /\ b ∈ nodes r /\
     sumZ (cur h') (nodes r) = sumZ (cur h) (nodes r)) /\
  (NewSmoothRRBalancer h (nodes r) = Ok r -> weights_fit (nodes r) ->
   (forall p, p ∈ nodes r -> cur h p = 0) ->
   forall k, exists sel h', calls k r h = Ok (sel, h') /\
     sumZ (cur h') (nodes r) = 0 /\ sum_int (cur h') (nodes r) 0 = 0).
Proof.
  destruct r as [ns]. simpl nodes. intros Hnd Hal.
  split; [| split].
  - intros b h' HNext. by eapply Next_sum_int.
  - intros HNew Hfit Hsafe.
    destruct (New_accepted h ns _ Hnd Hfit HNew) as (_ & _ & Hacc).
    pose proof Hacc as (Hne & _).
    destruct (Next_spec ns h Hnd Hal Hne) as (b & h' & HNext & Hb & _).
    exists b, h'. split; [done |]. split; [done |].
    by eapply Next_sum_exact.
  - intros HNew Hfit Hzero k.
    destruct (New_accepted h ns _ Hnd Hfit HNew) as (_ & _ & Hacc).
    pose proof (zero_steady h ns Hal Hacc Hzero) as Hst0.
    destruct (calls_steady (wt h) ns h k Hacc Hst0 Hzero)
      as (sel & h' & Hcalls & (_ & _ & Hsum & _) & _).
    exists sel, h'. split; [done |]. split; [done |].
    by rewrite sum_int_sumZ, Hsum.
Qed.

(** ** Sequences of calls *)

Lemma calls_S_Ok (k : nat) (r : smoothRoundRobinBalancer)
    (h h1 h2 : gmap nat Node) (sel : list (option nat)) (b : option nat) :
  calls k r h = Ok (sel, h1) -> Next r h1 = Ok (b, h2) ->
  calls (S k) r h = Ok (sel ++ [b], h2).
Proof. intros Hc Hn. simpl. rewrite Hc, bind_Ok. simpl. by rewrite Hn, bind_Ok. Qed.

Lemma calls_S_inv (k : nat) (r : smoothRoundRobinBalancer)
    (h h2 : gmap nat Node) (sel : list (option nat)) :
  calls (S k) r h = Ok (sel, h2) ->
  exists sel' h1 b,
    calls k r h = Ok (sel', h1) /\ Next r h1 = Ok (b, h2) /\ sel = sel' ++ [b].
Proof.
  simpl. destruct (calls k r h) as [[sel' h1] | e];
    [| rewrite bind_Panic; intros H; discriminate H].
  rewrite bind_Ok. simpl.
  destruct (Next r h1) as [[b h2'] | e] eqn:HNext;
    [| rewrite bind_Panic; intros H; discriminate H].
  rewrite bind_Ok. simpl. intros H. injection H as Hsel Hh. subst sel h2'.
  by exists sel', h1, b.
Qed.

Lemma calls_app (k1 k2 : nat) (r : smoothRoundRobinBalancer)
    (h h1 h2 : gmap nat Node) (s1 s2 : list (option nat)) :
  calls k1 r h = Ok (s1, h1) -> calls k2 r h1 = Ok (s2, h2) ->
  calls (k1 + k2) r h = Ok (s1 ++ s2, h2).
Proof.
  intros H1. revert s2 h2. induction k2 as [| k2 IH]; intros s2 h2 H2.
  - injection H2 as <- <-. by rewrite Nat.add_0_r, app_nil_r.
  - apply calls_S_inv in H2 as (s2' & h' & b & Hc & Hn & ->).
    rewrite Nat.add_succ_r, app_assoc.
    eapply calls_S_Ok; [by apply IH | done].
Qed.

(** ** Runs *)

Lemma run_snd_mono (x : option nat) (l : list (option nat)) (st : nat * nat) :
  (snd st <= snd (fold_left (run_step x) l st))%nat.
Proof.
  revert st. induction l as [| y l IH]; intros st; simpl; [lia |].
  etrans; [| apply IH]. unfold run_step. destruct (decide (y = x)); simpl; lia.
Qed.

Lemma run_replicate (x : option nat) (n : nat) (st : nat * nat) :
  (0 < n)%nat ->
  (fst st + n <= snd (fold_left (run_step x) (replicate n x) st))%nat.
Proof.
  revert st. induction n as [| n IH]; intros st Hn; [lia |].
  simpl. unfold run_step at 2. rewrite decide_True by done.
  destruct n as [| n].
  - simpl. lia.
  - etrans; [| apply IH; lia]. simpl. lia.
Qed.

Lemma run_step_same (x : option nat) (st : nat * nat) :
  run_step x st x = (S (fst st), Nat.max (snd st) (S (fst st))).
Proof. unfold run_step. by rewrite decide_True. Qed.

Lemma run_step_other (x y : option nat) (st : nat * nat) :
  y <> x -> run_step x st y = (0%nat, snd st).
Proof. intros H. unfold run_step. by rewrite decide_False. Qed.

(** [longest_run] bounds every block of consecutive [x] in the list. *)
Lemma longest_run_block (x : option nat) (l1 l2 : list (option nat)) (n : nat) :
  (n <= longest_run x (l1 ++ replicate n x ++ l2))%nat.
Proof.
  unfold longest_run. rewrite !fold_left_app.
  destruct n as [| n]; [lia |].
  etrans; [| apply run_snd_mono].
  etrans; [| apply run_replicate; lia]. lia.
Qed.

(** ** Weights 4 and 1 *)

Section FourToOne.
Variables (pa pb : nat) (W : nat -> Z).
Hypothesis Hab : pa <> pb.
Hypothesis HWa : W pa = 4.
Hypothesis HWb : W pb = 1.

Lemma accepted_41 : accepted W [pa; pb].
Proof using Hab HWa HWb.
  split; [done |]. split; [| split].
  - apply NoDup_cons. split; [| apply NoDup_singleton].
    intros ->%list_elem_of_singleton. done.
  - intros p [-> | [-> | Hp]%elem_of_cons]%elem_of_cons;
      [rewrite HWa | rewrite HWb | by apply not_elem_of_nil in Hp];
      unfold maxWeight; lia.
  - simpl. rewrite HWa, HWb. unfold maxTotalWeight. lia.
Qed.

Lemma step_41_a (h : gmap nat Node) :
  steady W [pa; pb] h -> cur h pb + 1 < cur h pa + 4 ->
  exists h', Next (mkBalancer [pa; pb]) h = Ok (Some pa, h') /\ steady W [pa; pb] h' /\
    cur h' pa = cur h pa - 1 /\ cur h' pb = cur h pb + 1.
Proof using Hab HWa HWb.
  intros Hst Hlt.
  destruct (steady_step W _ h accepted_41 Hst)
    as (b & h' & HNext & Hb & Hst' & Hmax & Hstep).
  assert (pa ∈ [pa; pb]) as Hina by apply list_elem_of_here.
  assert (pb ∈ [pa; pb]) as Hinb
    by apply list_elem_of_further, list_elem_of_here.
  assert (b = pa) as ->.
  { apply elem_of_cons in Hb as [-> | Hb]; [done |].
    apply list_elem_of_singleton in Hb as ->.
    specialize (Hmax pa Hina). rewrite HWa, HWb in Hmax. lia. }
  exists h'. split; [done |]. split; [done |].
  rewrite (Hstep pa Hina), (Hstep pb Hinb).
  rewrite decide_True by done. rewrite decide_False by done.
  simpl. rewrite HWa, HWb. lia.
Qed.

Lemma step_41_b (h : gmap nat Node) :
  steady W [pa; pb] h -> cur h pa + 4 < cur h pb + 1 ->
  exists h', Next (mkBalancer [pa; pb]) h = Ok (Some pb, h') /\ steady W [pa; pb] h' /\
    cur h' pa = cur h pa + 4 /\ cur h' pb = cur h pb - 4.
Proof using Hab HWa HWb.
  intros Hst Hlt.
  destruct (steady_step W _ h accepted_41 Hst)
    as (b & h' & HNext & Hb & Hst' & Hmax & Hstep).
  assert (pa ∈ [pa; pb]) as Hina by apply list_elem_of_here.
  assert (pb ∈ [pa; pb]) as Hinb
    by apply list_elem_of_further, list_elem_of_here.
  assert (b = pb) as ->.
  { apply elem_of_cons in Hb as [-> | Hb];
      [| by apply list_elem_of_singleton in Hb].
    specialize (Hmax pb Hinb). rewrite HWa, HWb in Hmax. lia. }
  exists h'. split; [done |]. split; [done |].
  rewrite (Hstep pa Hina), (Hstep pb Hinb).
  rewrite decide_False by done. rewrite decide_True by done.
  simpl. rewrite HWa, HWb. lia.
Qed.

(** From accumulators at 0, five calls return the heavier entry twice,
    the lighter one, the heavier one twice, and end at 0 again. *)
Lemma cycle_41 (h : gmap nat Node) :
  steady W [pa; pb] h -> cur h pa = 0 -> cur h pb = 0 ->
  (forall m, (m <= 5)%nat ->
     exists h', calls m (mkBalancer [pa; pb]) h = Ok (take m (cycle41 pa pb), h')) /\
  exists h',
    calls 5 (mkBalancer [pa; pb]) h = Ok (cycle41 pa pb, h') /\
    steady W [pa; pb] h' /\
    cur h' pa = 0 /\ cur h' pb = 0.
Proof using Hab HWa HWb.
  intros Hst Ha Hb.
  destruct (step_41_a h Hst) as (h1 & HN1 & Hst1 & Ha1 & Hb1); [lia |].
  destruct (step_41_a h1 Hst1) as (h2 & HN2 & Hst2 & Ha2 & Hb2); [lia |].
  destruct (step_41_b h2 Hst2) as (h3 & HN3 & Hst3 & Ha3 & Hb3); [lia |].
  destruct (step_41_a h3 Hst3) as (h4 & HN4 & Hst4 & Ha4 & Hb4); [lia |].
  destruct (step_41_a h4 Hst4) as (h5 & HN5 & Hst5 & Ha5 & Hb5); [lia |].
  assert (calls 0 (mkBalancer [pa; pb]) h = Ok ([], h)) as HC0 by done.
  pose proof (calls_S_Ok _ _ _ _ _ _ _ HC0 HN1) as HC1.
  pose proof (calls_S_Ok _ _ _ _ _ _ _ HC1 HN2) as HC2.
  pose proof (calls_S_Ok _ _ _ _ _ _ _ HC2 HN3) as HC3.
  pose proof (calls_S_Ok _ _ _ _ _ _ _ HC3 HN4) as HC4.
  pose proof (calls_S_Ok _ _ _ _ _ _ _ HC4 HN5) as HC5.
  split.
  - intros m Hm.
    destruct m as [| [| [| [| [| [| m]]]]]]; [| | | | | | lia];
      eexists; [exact HC0 | exact HC1 | exact HC2 | exact HC3 | exact HC4 | exact HC5].
  - exists h5. split; [exact HC5 |]. split; [done |]. lia.
Qed.

Lemma calls_41 (q m : nat) (h : gmap nat Node) :
  (m < 5)%nat ->
  steady W [pa; pb] h -> cur h pa = 0 -> cur h pb = 0 ->
  exists h', calls (5 * q + m) (mkBalancer [pa; pb]) h =
               Ok (concat (replicate q (cycle41 pa pb)) ++ take m (cycle41 pa pb), h').
Proof using Hab HWa HWb.
  intros Hm. revert h. induction q as [| q IH]; intros h Hst Ha Hb.
  - destruct (cycle_41 h Hst Ha Hb) as [Hpre _].
    destruct (Hpre m) as [h' Hc]; [lia |]. exists h'. exact Hc.
  - destruct (cycle_41 h Hst Ha Hb) as [_ (h1 & Hc5 & Hst1 & Ha1 & Hb1)].
    destruct (IH h1 Hst1 Ha1 Hb1) as [h' Hc].
    exists h'. replace (5 * S q + m)%nat with (5 + (5 * q + m))%nat by lia.
    rewrite (calls_app _ _ _ _ _ _ _ _ Hc5 Hc).
    change (concat (replicate (S q) (cycle41 pa pb)))
      with (cycle41 pa pb ++ concat (replicate q (cycle41 pa pb))).
    by rewrite <- app_assoc.
Qed.

Lemma run_cycle_41 (st : nat * nat) :
  (fst st <= 2)%nat -> (snd st <= 4)%nat ->
  fst (fold_left (run_step (Some pa)) (cycle41 pa pb) st) = 2%nat /\
  (snd (fold_left (run_step (Some pa)) (cycle41 pa pb) st) <= 4)%nat.
Proof using Hab.
  intros Hf Hs. destruct st as [c m]. simpl in *.
  unfold cycle41. cbn [fold_left].
  rewrite !run_step_same, run_step_other by (intros [= ?]; done).
  simpl. lia.
Qed.

Lemma run_cycles_41 (q : nat) (st : nat * nat) :
  (fst st <= 2)%nat -> (snd st <= 4)%nat ->
  (fst (fold_left (run_step (Some pa)) (concat (replicate q (cycle41 pa pb))) st) <= 2)%nat /\
  (snd (fold_left (run_step (Some pa)) (concat (replicate q (cycle41 pa pb))) st) <= 4)%nat.
Proof using Hab.
  revert st. induction q as [| q IH]; intros st Hf Hs; [done |].
  change (concat (replicate (S q) (cycle41 pa pb)))
    with (cycle41 pa pb ++ concat (replicate q (cycle41 pa pb))).
  rewrite fold_left_app.
  destruct (run_cycle_41 st Hf Hs) as [Hf' Hs'].
  apply IH; lia.
Qed.

Lemma run_prefix_41 (m : nat) (st : nat * nat) :
  (fst st <= 2)%nat -> (snd st <= 4)%nat ->
  (snd (fold_left (run_step (Some pa)) (take m (cycle41 pa pb)) st) <= 4)%nat.
Proof using Hab.
  intros Hf Hs. destruct st as [c n]. simpl in *.
  assert (Some pb <> Some pa) as Hne by (intros [= ?]; done).
  destruct m as [| [| [| [| [| m]]]]]; unfold cycle41; cbn [take fold_left];
    rewrite ?take_nil; cbn [fold_left];
    rewrite ?run_step_same, ?(run_step_other _ _ _ Hne), ?run_step_same;
    simpl; lia.
Qed.

Lemma longest_run_41 (q m : nat) :
  (longest_run (Some pa)
     (concat (replicate q (cycle41 pa pb)) ++ take m (cycle41 pa pb)) <= 4)%nat.
Proof using Hab.
  unfold longest_run. rewrite fold_left_app.
  destruct (run_cycles_41 q (0%nat, 0%nat)) as [Hf Hs]; [simpl; lia | simpl; lia |].
  by apply run_prefix_41.
Qed.

End FourToOne.

Lemma calls_length (k : nat) (r : smoothRoundRobinBalancer)
    (h h' : gmap nat Node) (sel : list (option nat)) :
  calls k r h = Ok (sel, h') -> length sel = k.
Proof.
  revert sel h'. induction k as [| k IH]; intros sel h' Hc.
  - by injection Hc as <- <-.
  - apply calls_S_inv in Hc as (sel' & h1 & b & Hc & _ & ->).
    rewrite length_app, (IH _ _ Hc). simpl. lia.
Qed.

(** C6: for two distinct nodes of weights 4 and 1, in this order, with
    accumulators at 0, however many calls are made, the entry of weight 4
    is never returned more than 4 times in a row: every block of
    consecutive selections of it has length at most 4.  Runs of 4 do
    occur, the first within 9 calls. *)
Theorem smooth_rr_run_bound (h : gmap nat Node) (pa pb : nat) (sa sb : string) :
  pa <> pb ->
  h !! pa = Some (mkNode sa 0 4) ->
  h !! pb = Some (mkNode sb 0 1) ->
  NewSmoothRRBalancer h [pa; pb] = Ok (mkBalancer [pa; pb]) /\
  (forall k, exists sel h',
     calls k (mkBalancer [pa; pb]) h = Ok (sel, h') /\
     length sel = k /\
     (longest_run (Some pa) sel <= 4)%nat /\
     (forall l1 l2 n,
        sel = l1 ++ replicate n (Some pa) ++ l2 -> (n <= 4)%nat)) /\
  (exists sel h',
     calls 9 (mkBalancer [pa; pb]) h = Ok (sel, h') /\
     longest_run (Some pa) sel = 4%nat).
Proof.
  intros Hab Ha Hb.
  assert (wt h pa = 4) as HWa by (by rewrite (wt_lookup _ _ _ Ha)).
  assert (wt h pb = 1) as HWb by (by rewrite (wt_lookup _ _ _ Hb)).
  pose proof (accepted_41 pa pb (wt h) Hab HWa HWb) as Hacc.
  assert (allocated h [pa; pb]) as Hal
    by (repeat apply Forall_cons_2; [by eexists | by eexists | apply Forall_nil_2]).
  assert (cur h pa = 0) as Hca by (by rewrite (cur_lookup _ _ _ Ha)).
  assert (cur h pb = 0) as Hcb by (by rewrite (cur_lookup _ _ _ Hb)).
  assert (steady (wt h) [pa; pb] h) as Hst.
  { apply zero_steady; [done | done |].
    intros p [-> | [-> | Hp]%elem_of_cons]%elem_of_cons;
      [done | done | by apply not_elem_of_nil in Hp]. }
  split; [| split].
  - rewrite New_unfold; [| done | done |].
    + simpl. rewrite HWa, HWb. reflexivity.
    + destruct Hacc as (_ & _ & HW & _). rewrite Forall_forall. exact HW.
  - intros k.
    destruct (calls_41 pa pb (wt h) Hab HWa HWb (k / 5) (k mod 5) h)
      as [h' Hc]; [apply Nat.mod_upper_bound; lia | done | done | done |].
    rewrite <- Nat.div_mod_eq in Hc.
    eexists _, h'. split; [exact Hc |].
    split; [by apply calls_length in Hc |].
    pose proof (longest_run_41 pa pb Hab (k / 5) (k mod 5)) as Hrun.
    split; [exact Hrun |].
    intros l1 l2 n Hsel. rewrite Hsel in Hrun.
    pose proof (longest_run_block (Some pa) l1 l2 n). lia.
  - destruct (calls_41 pa pb (wt h) Hab HWa HWb 1 4 h)
      as [h' Hc]; [lia | done | done | done |].
    eexists _, h'. split; [exact Hc |].
    assert (Some pb <> Some pa) as Hne by (intros [= ?]; done).
    unfold longest_run, cycle41. cbn [replicate concat take app fold_left].
    repeat (rewrite run_step_same || rewrite (run_step_other _ _ _ Hne)).
    reflexivity.
Qed.

Lemma smooth_rr_run_bound_witness :
  let h : gmap nat Node :=
    <[0%nat := mkNode "a" 0 4]> (<[1%nat := mkNode "b" 0 1]> ∅) in
  0%nat <> 1%nat /\
  h !! 0%nat = Some (mkNode "a" 0 4) /\
  h !! 1%nat = Some (mkNode "b" 0 1) /\
  exists sel h',
    calls 20 (mkBalancer [0; 1]%nat) h = Ok (sel, h') /\
    (longest_run (Some 0%nat) sel <= 4)%nat.
Proof.
  intros h.
  assert (0%nat <> 1%nat) as Hne by done.
  assert (h !! 0%nat = Some (mkNode "a" 0 4)) as Ha by reflexivity.
  assert (h !! 1%nat = Some (mkNode "b" 0 1)) as Hb by reflexivity.
  destruct (smooth_rr_run_bound h 0 1 "a" "b" Hne Ha Hb) as (_ & Hall & _).
  destruct (Hall 20%nat) as (sel & h' & Hc & _ & Hrun & _).
  split; [exact Hne |]. split; [exact Ha |]. split; [exact Hb |].
  exists sel, h'. split; [exact Hc | exact Hrun].
Defined.

(** The validation cases of the tests. *)
Lemma new_smooth_rr_validation_witness :
  let h : gmap nat Node :=
    <[0%nat := mkNode "a" 0 (maxTotalWeight - 100)]>
      (<[1%nat := mkNode "b" 0 200]> (<[2%nat := mkNode "z" 0 0]> ∅)) in
  allocated h [0; 1]%nat /\
  panics (NewSmoothRRBalancer h [0; 1]%nat) /\
  allocated h [2]%nat /\
  panics (NewSmoothRRBalancer h [2]%nat) /\
  allocated h [1]%nat /\
  NewSmoothRRBalancer h [1]%nat = Ok (mkBalancer [1]%nat).
Proof.
  intros h.
  assert (allocated h [0; 1]%nat) as H01
    by (repeat apply Forall_cons_2; [by eexists | by eexists | apply Forall_nil_2]).
  assert (allocated h [2]%nat) as H2
    by (repeat apply Forall_cons_2; [by eexists | apply Forall_nil_2]).
  assert (allocated h [1]%nat) as H1
    by (repeat apply Forall_cons_2; [by eexists | apply Forall_nil_2]).
  assert (weights_fit [0; 1]%nat) as Hfit by (vm_compute; discriminate).
  destruct (new_smooth_rr_validation h [0; 1]%nat H01) as (_ & Hex01 & _).
  destruct (Hex01 Hfit) as (_ & Hp01).
  destruct (new_smooth_rr_validation h [2]%nat H2) as ((_ & Hp2) & _).
  destruct (new_smooth_rr_validation h [1]%nat H1) as ((Hp1 & _) & _ & Hok1 & _).
  split; [exact H01 |]. split.
  { apply Hp01. right. right. left. apply Exists_cons_hd. reflexivity. }
  split; [exact H2 |]. split.
  { apply Hp2. right. left. apply Exists_cons_hd. vm_compute. discriminate. }
  split; [exact H1 |].
  apply Hok1. intros Hp. apply Hp1 in Hp.
  destruct Hp as [Hp | [Hp | [Hp | Hp]]].
  - discriminate Hp.
  - apply Exists_cons in Hp as [Hp | Hp]; [| by apply Exists_nil in Hp].
    vm_compute in Hp. by apply Hp.
  - apply Exists_cons in Hp as [Hp | Hp]; [| by apply Exists_nil in Hp].
    vm_compute in Hp. discriminate Hp.
  - vm_compute in Hp. discriminate Hp.
Defined.

Lemma smooth_next_keeps_sum_witness :
  let h := SmoothExamples.h511 in
  let r := mkBalancer SmoothExamples.ns511 in
  NoDup (nodes r) /\ allocated h (nodes r) /\
  NewSmoothRRBalancer h (nodes r) = Ok r /\ weights_fit (nodes r) /\
  (forall p, p ∈ nodes r -> cur h p = 0) /\
  (exists b h', Next r h = Ok (b, h') /\
     sum_int (cur h') (nodes r) 0 = sum_int (cur h) (nodes r) 0) /\
  (exists sel h', calls 3 r h = Ok (sel, h') /\ sumZ (cur h') (nodes r) = 0).
Proof.
  intros h r.
  assert (NoDup (nodes r)) as Hnd by compute_done.
  assert (allocated h (nodes r)) as Hal
    by (repeat apply Forall_cons_2;
        [by eexists | by eexists | by eexists | apply Forall_nil_2]).
  assert (NewSmoothRRBalancer h (nodes r) = Ok r) as HNew by (vm_compute; reflexivity).
  assert (weights_fit (nodes r)) as Hfit by (vm_compute; discriminate).
  assert (forall p, p ∈ nodes r -> cur h p = 0) as Hzero.
  { intros p Hp. simpl in Hp. unfold SmoothExamples.ns511 in Hp.
    repeat (apply elem_of_cons in Hp as [-> | Hp]; [vm_compute; reflexivity |]).
    by apply not_elem_of_nil in Hp. }
  destruct (smooth_next_keeps_sum h r Hnd Hal) as (Hint & _ & Hfrom0).
  split; [exact Hnd |]. split; [exact Hal |]. split; [exact HNew |].
  split; [exact Hfit |]. split; [exact Hzero |]. split.
  - destruct (Next r h) as [[b h'] | e] eqn:HNext; [| by vm_compute in HNext].
    exists b, h'. split; [reflexivity |]. exact (Hint b h' eq_refl).
  - destruct (Hfrom0 HNew Hfit Hzero 3%nat) as (sel & h' & Hc & Hsum & _).
    exists sel, h'. split; [exact Hc | exact Hsum].
Defined.

(** ** The tests of the repository, run on the model *)

Example smooth_511_sequence :
  SmoothExamples.names 7 SmoothExamples.h511 SmoothExamples.ns511
  = Ok ["a"; "a"; "b"; "a"; "c"; "a"; "a"]%string.
Proof. vm_compute. reflexivity. Qed.

Example smooth_321_distribution :
  SmoothExamples.counts 600 SmoothExamples.h321 SmoothExamples.ns511
  = Ok [300; 200; 100]%nat.
Proof. vm_compute. reflexivity. Qed.

(** Outside the states the constructor and [Next] produce: with an
    accumulator at [MaxInt64] the raise wraps, and the exact sum of the
    accumulators moves by [2^64] while the [int] sum stays. *)
Example smooth_sum_wraps :
  sumZ (cur SmoothExamples.heap_high) [0; 1]%nat = max_int /\
  SmoothExamples.sums_after_Next SmoothExamples.heap_high [0; 1]%nat
  = Ok (max_int - modulus, max_int).
Proof. split; vm_compute; reflexivity. Qed.

End SmoothFacts.


(** * Further properties of the plain round-robin *)

Module RoundRobinMore.
Import GoInt GoIntFacts RoundRobin RoundRobinFacts RoundRobinRuns.

(** X1. [Next] of package [balance] never panics: over no servers it
    returns the empty string and leaves the balancer as it is; otherwise it
    returns the server at the old counter value modulo the number of
    servers, a member of the list, and advances the counter by one modulo
    [2^64], whatever the counter was. *)
Theorem round_robin_next_total (r : RoundRobinBalancer) :
  slice_len_ok (servers r) ->
  (servers r = [] /\ Next r = Ok (""%string, r)) \/
  (servers r <> [] /\
   exists s,
     Next r = Ok (s, mkBalancer (servers r) (u64 (index r + 1))) /\
     s ∈ servers r /\
     servers r !! Z.to_nat (u64 (index r) mod Z.of_nat (length (servers r)))
       = Some s).
Proof.
  intros Hlen. destruct r as [ss i]. simpl in *.
  destruct ss as [| s0 ss]; [by left |]. right. split; [done |].
  destruct (Next_ok (s0 :: ss) i) as (s & HN & Hs); [done | done |].
  exists s. split; [done |]. split; [| done].
  by eapply list_elem_of_lookup_2.
Qed.

Lemma round_robin_next_total_witness :
  let r := mkBalancer ["x"; "y"; "z"]%string 18446744073709551615 in
  slice_len_ok (servers r) /\
  Next r = Ok ("x"%string, mkBalancer ["x"; "y"; "z"]%string 0).
Proof.
  intros r.
  assert (slice_len_ok (servers r)) as Hlen
    by (unfold slice_len_ok, max_int; simpl; lia).
  split; [exact Hlen |].
  destruct (round_robin_next_total r Hlen) as [[Hnil _] | (_ & s & HN & _ & Hs)];
    [discriminate Hnil |].
  vm_compute in Hs. injection Hs as <-. exact HN.
Defined.

Lemma rr_calls_S_Ok (m : nat) (r r1 r2 : RoundRobinBalancer)
    (out : list string) (s : string) :
  calls m r = Ok (out, r1) -> Next r1 = Ok (s, r2) ->
  calls (S m) r = Ok (out ++ [s], r2).
Proof. intros Hc Hn. simpl. rewrite Hc. simpl. by rewrite Hn. Qed.

(** [m] calls from the counter value [i]: the [j]-th of them (from 0)
    returns the server at [(i + j) mod 2^64 mod N]. *)
Lemma calls_from (ss : list string) (i : Z) (m : nat) :
  ss <> [] -> slice_len_ok ss -> 0 <= i < modulus ->
  exists out,
    calls m (mkBalancer ss i) = Ok (out, mkBalancer ss (u64 (i + Z.of_nat m))) /\
    length out = m /\
    forall j, (j < m)%nat ->
      out !! j = ss !! Z.to_nat (u64 (i + Z.of_nat j) mod Z.of_nat (length ss)).
Proof.
  intros Hne Hlen Hi. induction m as [| m IH].
  - exists []. rewrite Z.add_0_r, u64_small by done.
    split; [done |]. split; [done |]. intros j Hj. lia.
  - destruct IH as (out & Hc & Hlo & Hout).
    destruct (Next_ok ss (u64 (i + Z.of_nat m)) Hne Hlen) as (s & HN & Hs).
    exists (out ++ [s]). split; [| split].
    + rewrite (rr_calls_S_Ok _ _ _ _ _ _ Hc HN). rewrite u64_add_l.
      by replace (i + Z.of_nat (S m)) with (i + Z.of_nat m + 1) by lia.
    + rewrite length_app, Hlo. simpl. lia.
    + intros j Hj. destruct (decide (j < m)%nat) as [Hlt | Hge].
      * rewrite lookup_app_l by lia. by apply Hout.
      * assert (j = m) as -> by lia.
        rewrite lookup_app_r by lia. rewrite Hlo, Nat.sub_diag. simpl.
        unfold u64 in *. rewrite Z.mod_mod in Hs by (unfold modulus; lia).
        by rewrite Hs.
Qed.

Lemma length_concat_replicate (ss : list string) (q : nat) :
  length (concat (replicate q ss)) = (q * length ss)%nat.
Proof.
  induction q as [| q IH]; [done |].
  change (concat (replicate (S q) ss)) with (ss ++ concat (replicate q ss)).
  rewrite length_app, IH. simpl. lia.
Qed.

Lemma lookup_concat_replicate (ss : list string) (q j : nat) :
  (j < q * length ss)%nat ->
  concat (replicate q ss) !! j = ss !! (j mod length ss)%nat.
Proof.
  revert j. induction q as [| q IH]; intros j Hj; [simpl in Hj; lia |].
  assert (length ss <> 0)%nat as Hn by (intros H0; rewrite H0 in Hj; lia).
  change (concat (replicate (S q) ss)) with (ss ++ concat (replicate q ss)).
  destruct (decide (j < length ss)%nat) as [Hlt | Hge].
  - rewrite lookup_app_l by done. by rewrite Nat.mod_small.
  - rewrite lookup_app_r by lia. rewrite IH by (simpl in Hj; lia).
    f_equal.
    replace j with ((j - length ss) + 1 * length ss)%nat at 2 by lia.
    by rewrite Nat.Div0.mod_add.
Qed.

(** X2. Over [N >= 1] servers and from a fresh balancer, [q * N] calls
    with [q * N <= 2^64] return the list of servers [q] times over, in
    order: every position of the list is served exactly [q] times. *)
Theorem round_robin_even_rounds (ss : list string) (q : nat) :
  ss <> [] -> slice_len_ok ss ->
  Z.of_nat (q * length ss) <= modulus ->
  calls (q * length ss) (mkBalancer ss 0)
  = Ok (concat (replicate q ss),
        mkBalancer ss (u64 (Z.of_nat (q * length ss)))).
Proof.
  intros Hne Hlen Hq.
  destruct (calls_from ss 0 (q * length ss) Hne Hlen) as (out & Hc & Hlo & Hout);
    [unfold modulus; lia |].
  rewrite Z.add_0_l in Hc. rewrite Hc. do 2 f_equal.
  assert (0 < length ss)%nat as Hn by (destruct ss; [done | simpl; lia]).
  apply list_eq. intros j.
  destruct (decide (j < q * length ss)%nat) as [Hlt | Hge].
  - rewrite (Hout j Hlt), lookup_concat_replicate by done. f_equal.
    rewrite Z.add_0_l, u64_small by lia.
    rewrite <- Nat2Z.inj_mod. apply Nat2Z.id.
  - rewrite !lookup_ge_None_2; [done | |].
    + rewrite length_concat_replicate. lia.
    + lia.
Qed.

Lemma round_robin_even_rounds_witness :
  let ss := ["x"; "y"; "z"]%string in
  ss <> [] /\ slice_len_ok ss /\ Z.of_nat (2 * length ss) <= modulus /\
  calls 6 (mkBalancer ss 0) = Ok (ss ++ ss, mkBalancer ss 6).
Proof.
  intros ss.
  assert (ss <> []) as Hne by done.
  assert (slice_len_ok ss) as Hlen by (unfold slice_len_ok, max_int; simpl; lia).
  assert (Z.of_nat (2 * length ss) <= modulus) as Hq by (vm_compute; discriminate).
  split; [exact Hne |]. split; [exact Hlen |]. split; [exact Hq |].
  exact (round_robin_even_rounds ss 2 Hne Hlen Hq).
Defined.

(** X3. Over [N >= 1] servers the counter after [k] calls is [k mod 2^64],
    so two call counts less than [2^64] apart leave different counter
    values: no value is handed out twice within [2^64] calls. *)
Theorem round_robin_counter_distinct (ss : list string) (j k : N) :
  ss <> [] -> slice_len_ok ss ->
  (j < k)%N -> Z.of_N k - Z.of_N j < modulus ->
  exists rj rk,
    after_calls j (mkBalancer ss 0) = Ok rj /\
    after_calls k (mkBalancer ss 0) = Ok rk /\
    index rj = Z.of_N j mod modulus /\
    index rk = Z.of_N k mod modulus /\
    index rj <> index rk.
Proof.
  intros Hne Hlen Hjk Hwin.
  exists (mkBalancer ss (u64 (Z.of_N j))), (mkBalancer ss (u64 (Z.of_N k))).
  rewrite !after_calls_state by done.
  split; [done |]. split; [done |]. split; [done |]. split; [done |].
  simpl. unfold u64. intros Heq.
  assert ((Z.of_N k - Z.of_N j) mod modulus = 0) as H0
    by (rewrite Zminus_mod, Heq, Z.sub_diag; reflexivity).
  rewrite Z.mod_small in H0 by lia. lia.
Qed.

Lemma round_robin_counter_distinct_witness :
  let ss := ["x"; "y"; "z"]%string in
  ss <> [] /\ slice_len_ok ss /\ (2 < 5)%N /\ Z.of_N 5 - Z.of_N 2 < modulus /\
  exists rj rk,
    after_calls 2 (mkBalancer ss 0) = Ok rj /\
    after_calls 5 (mkBalancer ss 0) = Ok rk /\
    index rj <> index rk.
Proof.
  intros ss.
  assert (ss <> []) as Hne by done.
  assert (slice_len_ok ss) as Hlen by (unfold slice_len_ok, max_int; simpl; lia).
  assert (2 < 5)%N as Hjk by reflexivity.
  assert (Z.of_N 5 - Z.of_N 2 < modulus) as Hwin by reflexivity.
  split; [exact Hne |]. split; [exact Hlen |]. split; [exact Hjk |].
  split; [exact Hwin |].
  destruct (round_robin_counter_distinct ss 2 5 Hne Hlen Hjk Hwin)
    as (rj & rk & Hj & Hk & _ & _ & Hd).
  exists rj, rk. split; [exact Hj |]. split; [exact Hk | exact Hd].
Defined.

(** X4. The copy in package [backend]: a balancer its constructor returns
    has at least one server, and on such a balancer [Next] does not panic
    and returns what [Next] of package [balance] returns, leaving the same
    counter. *)
Theorem backend_round_robin_next (ss : list string)
    (r : BackendRoundRobin.RoundRobinBalancer) :
  slice_len_ok ss ->
  BackendRoundRobin.NewRoundRobinBalancer ss = Ok r ->
  BackendRoundRobin.servers r = ss /\ ss <> [] /\
  BackendRoundRobin.index r = 0 /\
  forall i, exists s,
    BackendRoundRobin.Next (BackendRoundRobin.mkBalancer ss i)
      = Ok (s, BackendRoundRobin.mkBalancer ss (u64 (i + 1))) /\
    Next (mkBalancer ss i) = Ok (s, mkBalancer ss (u64 (i + 1))) /\
    s ∈ ss.
Proof.
  intros Hlen HNew. unfold BackendRoundRobin.NewRoundRobinBalancer in HNew.
  destruct (decide (length ss = 0%nat)) as [? | Hn]; [done |].
  injection HNew as <-. simpl.
  assert (ss <> []) as Hne by (intros ->; done).
  split; [done |]. split; [done |]. split; [done |].
  intros i.
  destruct (Next_ok ss i Hne Hlen) as (s & HN & Hs).
  exists s. split; [| split; [done | by eapply list_elem_of_lookup_2]].
  unfold Next in HN. simpl in HN.
  destruct (decide (length ss = 0%nat)); [done |].
  unfold BackendRoundRobin.Next. simpl.
  destruct (select ss (u64 (i + 1))) as [s' | e]; [| done].
  simpl in *. by injection HN as ->.
Qed.

Lemma backend_round_robin_next_witness :
  let ss := ["x"; "y"]%string in
  slice_len_ok ss /\
  BackendRoundRobin.NewRoundRobinBalancer ss
    = Ok (BackendRoundRobin.mkBalancer ss 0) /\
  BackendRoundRobin.Next (BackendRoundRobin.mkBalancer ss 1)
    = Ok ("y"%string, BackendRoundRobin.mkBalancer ss 2).
Proof.
  intros ss.
  assert (slice_len_ok ss) as Hlen by (unfold slice_len_ok, max_int; simpl; lia).
  assert (BackendRoundRobin.NewRoundRobinBalancer ss
          = Ok (BackendRoundRobin.mkBalancer ss 0)) as HNew by reflexivity.
  split; [exact Hlen |]. split; [exact HNew |].
  destruct (backend_round_robin_next ss _ Hlen HNew) as (_ & _ & _ & HN).
  destruct (HN 1) as (s & HB & HA & _).
  assert (s = "y"%string) as -> by (vm_compute in HA; by injection HA as <-).
  exact HB.
Defined.

(** X15. When the number of servers divides [2^64], as every power of
    two up to [2^63] does, the wrap of the counter is harmless: every
    call, however late, returns [servers[(k-1) mod N]], and the sequence
    has period [N] for ever. *)
Theorem round_robin_divisor_of_wrap (ss : list string) (k : N) :
  ss <> [] -> slice_len_ok ss ->
  (Z.of_nat (length ss) | modulus) ->
  (1 <= k)%N ->
  (exists s,
     kth_call k (mkBalancer ss 0) = Ok s /\
     ss !! Z.to_nat ((Z.of_N k - 1) mod Z.of_nat (length ss)) = Some s) /\
  kth_call (k + N.of_nat (length ss)) (mkBalancer ss 0)
    = kth_call k (mkBalancer ss 0).
Proof.
  intros Hne Hlen Hdiv Hk.
  assert (forall k', (1 <= k')%N ->
    exists s, kth_call k' (mkBalancer ss 0) = Ok s /\
      ss !! Z.to_nat ((Z.of_N k' - 1) mod Z.of_nat (length ss)) = Some s) as Hall.
  { intros k' Hk'.
    destruct (kth_call_spec ss k' Hne Hlen Hk') as (s & Hc & Hs).
    exists s. split; [done |].
    unfold u64 in Hs. by rewrite Z.mod_mod_divide in Hs. }
  split; [by apply Hall |].
  destruct (Hall k Hk) as (s1 & -> & Hs1).
  destruct (Hall (k + N.of_nat (length ss))%N) as (s2 & -> & Hs2); [lia |].
  replace (Z.of_N (k + N.of_nat (length ss)) - 1)
    with (Z.of_N k - 1 + 1 * Z.of_nat (length ss)) in Hs2 by lia.
  rewrite Z_mod_plus_full in Hs2. congruence.
Qed.

Lemma round_robin_divisor_of_wrap_witness :
  let ss := ["s1"; "s2"; "s3"; "s4"]%string in
  let k := 18446744073709551618%N in
  ss <> [] /\ slice_len_ok ss /\ (Z.of_nat (length ss) | modulus) /\
  (1 <= k)%N /\
  kth_call k (mkBalancer ss 0) = Ok "s2"%string.
Proof.
  intros ss k.
  assert (ss <> []) as Hne by done.
  assert (slice_len_ok ss) as Hlen by (unfold slice_len_ok, max_int; simpl; lia).
  assert (Z.of_nat (length ss) | modulus) as Hdiv
    by (exists 4611686018427387904; reflexivity).
  assert (1 <= k)%N as Hk by done.
  split; [exact Hne |]. split; [exact Hlen |]. split; [exact Hdiv |].
  split; [exact Hk |].
  destruct (round_robin_divisor_of_wrap ss k Hne Hlen Hdiv Hk) as [(s & Hc & Hs) _].
  vm_compute in Hs. injection Hs as <-. exact Hc.
Defined.

End RoundRobinMore.

(** * Uniform random *)

Module RandomMore.
Import GoInt Random.

(** X5. [Next] of the uniform random balancer never panics when [Intn]
    keeps its contract: over no servers it returns the empty string
    without drawing; otherwise it returns the server at the drawn index,
    which lies in the list; over a single server it returns that server. *)
Theorem random_next_member (r : RandomBalancer) :
  RandomWeight.rng_ok (rng r) ->
  (servers r = [] /\ Next r = Ok ""%string) \/
  (servers r <> [] /\
   0 <= rng r (Z.of_nat (length (servers r))) < Z.of_nat (length (servers r)) /\
   (exists s,
      servers r !! Z.to_nat (rng r (Z.of_nat (length (servers r)))) = Some s /\
      s ∈ servers r /\ Next r = Ok s) /\
   (forall s, servers r = [s] -> Next r = Ok s)).
Proof.
  intros Hg. destruct r as [ss g]. simpl in *.
  destruct ss as [| s0 ss]; [by left |]. right. split; [done |].
  remember (Z.of_nat (length (s0 :: ss))) as n eqn:En.
  assert (0 < n) as Hn by (rewrite En; simpl; lia).
  pose proof (Hg n Hn) as Hd. split; [done |].
  assert (Z.to_nat (g n) < length (s0 :: ss))%nat as Hlt by lia.
  destruct (lookup_lt_is_Some_2 (s0 :: ss) (Z.to_nat (g n)) Hlt) as [s Hs].
  assert (Next (mkBalancer (s0 :: ss) g) = Ok s) as HN.
  { unfold Next. simpl servers. simpl rng.
    destruct (decide (length (s0 :: ss) = 0%nat)); [done |].
    rewrite <- En. unfold RandomWeight.Intn.
    destruct (Z.leb_spec n 0); [lia |]. simpl.
    unfold at_index. destruct (Z.ltb_spec (g n) 0); [lia |]. by rewrite Hs. }
  split.
  - exists s. split; [done |]. split; [by eapply list_elem_of_lookup_2 | done].
  - intros s1 [= -> ->]. rewrite HN. f_equal.
    simpl in En. replace (g n) with 0 in Hs by lia. by injection Hs as ->.
Qed.

Lemma random_next_member_witness :
  let r := NewRandomBalancer ["s1"; "s2"; "s3"]%string (fun n => n - 1) in
  RandomWeight.rng_ok (rng r) /\ Next r = Ok "s3"%string.
Proof.
  intros r.
  assert (RandomWeight.rng_ok (rng r)) as Hg by (intros n Hn; simpl; lia).
  split; [exact Hg |].
  destruct (random_next_member r Hg) as [[Hnil _] | (_ & _ & (s & Hs & _ & HN) & _)];
    [discriminate Hnil |].
  vm_compute in Hs. injection Hs as <-. exact HN.
Defined.

End RandomMore.

(** * Further properties of the weighted random balancer *)

Module RandomWeightMore.
Import GoInt GoIntFacts RandomWeight RandomWeightFacts.

Lemma cumulative_before (ss : list Server) (i : nat) (s : Server) :
  Forall (fun s => 0 <= Weight s) ss -> ss !! i = Some s ->
  0 <= cumulative ss i - Weight s /\ cumulative ss i <= total ss.
Proof.
  revert i. induction ss as [| s0 ss IH]; intros i Hnn Hi; [done |].
  apply Forall_cons in Hnn as [H0 Hnn].
  destruct i as [| i].
  - injection Hi as <-. rewrite cumulative_0. simpl.
    assert (0 <= total ss)
      by (clear -Hnn; induction Hnn; simpl; lia).
    lia.
  - rewrite cumulative_S. simpl. destruct (IH i Hnn Hi). lia.
Qed.

Lemma cumulative_earlier (ss : list Server) (i j : nat) (s : Server) :
  Forall (fun s => 0 <= Weight s) ss -> ss !! i = Some s -> (j < i)%nat ->
  cumulative ss j <= cumulative ss i - Weight s.
Proof.
  revert i j. induction ss as [| s0 ss IH]; intros i j Hnn Hi Hj; [done |].
  pose proof Hnn as Hnn'. apply Forall_cons in Hnn' as [H0 Hnn'].
  destruct i as [| i]; [lia |]. simpl in Hi.
  rewrite cumulative_S.
  destruct j as [| j].
  - rewrite cumulative_0. destruct (cumulative_before ss i s Hnn' Hi). lia.
  - rewrite cumulative_S. specialize (IH i j Hnn' Hi). lia.
Qed.

Lemma cumulative_last (ss : list Server) (i : nat) (s : Server) :
  ss !! S i = Some s -> cumulative ss (S i) = cumulative ss i + Weight s.
Proof.
  revert i. induction ss as [| s0 ss IH]; intros i Hi; [done |].
  simpl in Hi. rewrite !cumulative_S.
  destruct i as [| i].
  - destruct ss as [| s1 ss]; [done |]. injection Hi as <-.
    rewrite !cumulative_0. simpl. lia.
  - rewrite (IH i Hi), cumulative_S. lia.
Qed.

(** X6. The share of an entry: with weights that are not negative, sum
    to a positive total [T] and do not overflow, the draws for which
    [Next] returns entry [i] are exactly those of an interval of
    [Weight] many consecutive numbers inside [[0, T)], wherever the entry
    stands in the list. *)
Theorem weighted_random_share (r : RandomWeightBalancer) (i : nat) (s : Server) :
  rng_ok (rng r) ->
  magnitude (servers r) <= max_int ->
  Forall (fun s => 0 <= Weight s) (servers r) ->
  0 < total (servers r) ->
  servers r !! i = Some s ->
  let d := rng r (total (servers r)) in
  let lo := cumulative (servers r) i - Weight s in
  let hi := cumulative (servers r) i in
  0 <= lo /\ hi - lo = Weight s /\ hi <= total (servers r) /\
  (first_exceeding (servers r) d i <-> lo <= d < hi) /\
  (lo <= d < hi -> Next r = Ok (Addr s)).
Proof.
  intros Hg Hm Hnn HT Hi d lo hi.
  destruct (cumulative_before _ _ _ Hnn Hi) as [Hlo Hhi].
  assert (0 <= d < total (servers r)) as Hd by (apply Hg; done).
  assert (first_exceeding (servers r) d i <-> lo <= d < hi) as Hiff.
  { split.
    - intros [Hlt Hle]. split; [| done].
      destruct i as [| i].
      + unfold lo.
        destruct (servers r) as [| s0 ss]; [done |]. injection Hi as <-.
        rewrite cumulative_0. lia.
      + unfold lo. rewrite (cumulative_last _ _ _ Hi).
        specialize (Hle i). lia.
    - intros [Hge Hlt]. split; [done |]. intros j Hj.
      pose proof (cumulative_earlier _ _ _ _ Hnn Hi Hj). unfold lo in Hge. lia. }
  split; [done |]. split; [unfold hi, lo; lia |]. split; [done |].
  split; [done |].
  intros Hin. apply Hiff in Hin.
  destruct (walk_exact (servers r) d Hm Hd) as (s' & Hw & Hsw & _ & _).
  destruct (spec_walk_first _ _ _ Hsw) as (i' & Hi' & Hfirst).
  assert (i' = i) as -> by (eapply first_exceeding_unique; done).
  assert (s' = s) as -> by congruence.
  rewrite Next_unfold by (rewrite sum_weights_exact; done).
  rewrite (sum_weights_exact _ Hm). fold d. by rewrite Hw.
Qed.

Lemma weighted_random_share_witness :
  let g := fun n => 29 mod n in
  let r := mkBalancer [mkServer "a" 10; mkServer "b" 20; mkServer "c" 30] g in
  rng_ok g /\ magnitude (servers r) <= max_int /\
  Forall (fun s => 0 <= Weight s) (servers r) /\
  0 < total (servers r) /\
  servers r !! 1%nat = Some (mkServer "b" 20) /\
  Next r = Ok "b"%string.
Proof.
  intros g r.
  assert (rng_ok g) as Hg by (intros n Hn; apply Z.mod_pos_bound; lia).
  assert (magnitude (servers r) <= max_int) as Hm by (vm_compute; discriminate).
  assert (Forall (fun s => 0 <= Weight s) (servers r)) as Hnn
    by (repeat apply Forall_cons_2; simpl; try lia; apply Forall_nil_2).
  assert (0 < total (servers r)) as HT by reflexivity.
  assert (servers r !! 1%nat = Some (mkServer "b" 20)) as Hi by reflexivity.
  split; [exact Hg |]. split; [exact Hm |]. split; [exact Hnn |].
  split; [exact HT |]. split; [exact Hi |].
  destruct (weighted_random_share r 1 _ Hg Hm Hnn HT Hi) as (_ & _ & _ & _ & HN).
  apply HN. split; vm_compute; [discriminate | reflexivity].
Defined.

Lemma walk_nonzero (ss : list Server) (idx : Z) (s : Server) :
  0 <= idx -> in_range idx -> walk ss idx = Some s -> Weight s <> 0.
Proof.
  revert idx. induction ss as [| s0 ss IH]; intros idx Hpos Hr Hw; [done |].
  simpl in Hw.
  destruct (Z.ltb_spec (sub idx (Weight s0)) 0) as [Hneg | Hge].
  - injection Hw as <-. intros H0. rewrite H0 in Hneg. unfold sub in Hneg.
    rewrite Z.sub_0_r, wrap_exact in Hneg by done. lia.
  - eapply IH; [exact Hge | apply wrap_in_range | exact Hw].
Qed.

(** X7. An entry of weight 0 is never the one [Next] returns, whatever
    the other weights are, also where the arithmetic wraps: whenever the
    total that [Next] computes is positive, the entry at which the loop
    returns has a weight other than 0. *)
Theorem weighted_random_skips_zero (r : RandomWeightBalancer) :
  rng_ok (rng r) ->
  0 < sum_weights (servers r) 0 ->
  exists s,
    s ∈ servers r /\
    walk (servers r) (rng r (sum_weights (servers r) 0)) = Some s /\
    Next r = Ok (Addr s) /\
    Weight s <> 0.
Proof.
  intros Hg HT.
  set (T := sum_weights (servers r) 0) in *.
  assert (0 <= rng r T < T) as Hd by (apply Hg; done).
  destruct (walk_returns (servers r) (rng r T) HT Hd) as (s & Hw).
  assert (in_range T) as HrT
    by (unfold T; rewrite sum_weights_total; apply wrap_in_range).
  exists s. split; [| split; [done |]; split].
  - clear -Hw. revert Hw. generalize (rng r T).
    induction (servers r) as [| s0 ss IH]; intros idx Hw; simpl in Hw; [done |].
    destruct (sub idx (Weight s0) <? 0).
    + injection Hw as ->. apply list_elem_of_here.
    + apply list_elem_of_further. by eapply IH.
  - rewrite Next_unfold by done. fold T. by rewrite Hw.
  - eapply walk_nonzero; [| | exact Hw]; [lia |].
    unfold in_range, min_int, max_int in *. lia.
Qed.

Lemma weighted_random_skips_zero_witness :
  let g := fun n : Z => 0 in
  let r := mkBalancer
             [mkServer "server1" 0; mkServer "server2" 10; mkServer "server3" 20] g in
  rng_ok g /\ 0 < sum_weights (servers r) 0 /\ Next r = Ok "server2"%string.
Proof.
  intros g r.
  assert (rng_ok g) as Hg by (intros n Hn; unfold g; lia).
  assert (0 < sum_weights (servers r) 0) as HT by reflexivity.
  split; [exact Hg |]. split; [exact HT |].
  destruct (weighted_random_skips_zero r Hg HT) as (s & _ & Hw & HN & _).
  vm_compute in Hw. injection Hw as <-. exact HN.
Defined.

End RandomWeightMore.

(** * Further properties of the smooth weighted round-robin *)

Module SmoothMore.
Import GoInt GoIntFacts Smooth SmoothFacts SmoothFrame.

Lemma set_current_same (n : Node) : set_current n (current n) = n.
Proof. by destruct n. Qed.

Lemma set_current_twice (n : Node) (c c' : Z) :
  set_current (set_current n c) c' = set_current n c'.
Proof. reflexivity. Qed.

Lemma only_current_refl (h : gmap nat Node) : only_current h h.
Proof.
  intros p. destruct (h !! p) as [n |] eqn:Hn; [| done].
  exists (current n). by rewrite set_current_same.
Qed.

Lemma only_current_trans (h1 h2 h3 : gmap nat Node) :
  only_current h1 h2 -> only_current h2 h3 -> only_current h1 h3.
Proof.
  intros H12 H23 p. specialize (H12 p). specialize (H23 p).
  destruct (h1 !! p) as [n |].
  - destruct H12 as [c Hc]. rewrite Hc in H23. destruct H23 as [c' Hc'].
    exists c'. by rewrite Hc'.
  - by rewrite H12 in H23.
Qed.

Lemma only_current_insert (h : gmap nat Node) (p : nat) (n : Node) (c : Z) :
  h !! p = Some n -> only_current h (<[p := set_current n c]> h).
Proof.
  intros Hn q. destruct (decide (q = p)) as [-> | Hne].
  - rewrite Hn, lookup_insert_eq. by exists c.
  - rewrite lookup_insert_ne by done. apply only_current_refl.
Qed.

Lemma only_current_is_Some (h h' : gmap nat Node) (p : nat) :
  only_current h h' -> is_Some (h' !! p) <-> is_Some (h !! p).
Proof.
  intros H. specialize (H p). destruct (h !! p) as [n |].
  - destruct H as [c ->]. split; by eexists.
  - rewrite H. done.
Qed.

Lemma only_current_allocated (h h' : gmap nat Node) (ns : list nat) :
  only_current h h' -> allocated h' ns <-> allocated h ns.
Proof.
  intros H. unfold allocated. rewrite !Forall_forall.
  split; intros Hal p Hp; specialize (Hal p Hp);
    by apply (only_current_is_Some h h' p H).
Qed.

Lemma deref_None (h : gmap nat Node) (p : nat) :
  h !! p = None -> deref h p = Panic NilDereference.
Proof. intros H. unfold deref. by rewrite H. Qed.

(** The loop of [Next] over allocated nodes, repeated or not. *)
Lemma Next_loop_any (h : gmap nat Node) (ns : list nat) (tw : Z)
    (best : option nat) :
  allocated h ns ->
  (forall b, best = Some b -> is_Some (h !! b)) ->
  exists h' tw' best',
    Next_loop h ns tw best = Ok (h', tw', best') /\
    only_current h h' /\
    (forall p, p ∉ ns -> h' !! p = h !! p) /\
    (forall b, best' = Some b -> is_Some (h' !! b)) /\
    (best' = best \/ exists b, best' = Some b /\ b ∈ ns) /\
    (ns <> [] -> best' <> None).
Proof.
  revert h tw best. induction ns as [| p ns IH]; intros h tw best Hal Hbest.
  - exists h, tw, best. split; [done |]. split; [apply only_current_refl |].
    split; [done |]. split; [done |]. split; [by left | done].
  - apply Forall_cons in Hal as [[n Hn] Hal].
    rewrite Next_loop_cons, (deref_Some _ _ _ Hn), bind_Ok. cbv beta zeta.
    set (n1 := set_current n (add (current n) (weight n))).
    set (h1 := <[p := n1]> h).
    pose proof (only_current_insert h p n (add (current n) (weight n)) Hn) as Hoc.
    fold n1 in Hoc. fold h1 in Hoc.
    assert (exists best1,
      (match best with
       | None => Ok (Some p)
       | Some b =>
           nb ← deref h1 b;
           Ok (if current n1 >? current nb then Some p else Some b)
       end) = Ok best1 /\
      (best1 = Some p \/ best1 = best /\ best <> None)) as (best1 & -> & Hb1).
    { destruct best as [b |]; [| exists (Some p); split; [done | by left]].
      destruct (proj2 (only_current_is_Some h h1 b Hoc) (Hbest b eq_refl))
        as [nb Hnb].
      rewrite (deref_Some _ _ _ Hnb), bind_Ok.
      destruct (current n1 >? current nb); eexists; (split; [done |]);
        [by left | by right]. }
    rewrite bind_Ok.
    assert (is_Some (h1 !! p)) as Hp1 by (unfold h1; by rewrite lookup_insert_eq).
    destruct (IH h1 (add tw (weight n1)) best1) as
      (h' & tw' & best' & Hloop & Hoc' & Hout & Hbest' & Hmem & _).
    { by apply (only_current_allocated h h1 ns Hoc). }
    { intros b Hb. destruct Hb1 as [-> | [-> _]].
      - by injection Hb as <-.
      - by apply (only_current_is_Some h h1 b Hoc), Hbest. }
    exists h', tw', best'. split; [done |].
    split; [by eapply only_current_trans |].
    split; [| split; [done |]; split].
    + intros q Hq. rewrite Hout by (intros ?; apply Hq; by apply list_elem_of_further).
      unfold h1. rewrite lookup_insert_ne; [done |].
      intros ->. apply Hq, list_elem_of_here.
    + destruct Hmem as [-> | (b & -> & Hb)].
      * destruct Hb1 as [-> | [-> _]]; [right | by left].
        exists p. split; [done | apply list_elem_of_here].
      * right. exists b. split; [done | by apply list_elem_of_further].
    + intros _. destruct Hmem as [-> | (b & -> & _)]; [| done].
      destruct Hb1 as [-> | [-> Hn0]]; done.
Qed.

Lemma Next_loop_nil_pointer (h : gmap nat Node) (ns : list nat) (tw : Z)
    (best : option nat) :
  ~ allocated h ns ->
  (forall b, best = Some b -> is_Some (h !! b)) ->
  Next_loop h ns tw best = Panic NilDereference.
Proof.
  revert h tw best. induction ns as [| p ns IH]; intros h tw best Hnal Hbest.
  - exfalso. apply Hnal. constructor.
  - rewrite Next_loop_cons.
    destruct (h !! p) as [n |] eqn:Hn;
      [| by rewrite (deref_None _ _ Hn), bind_Panic].
    rewrite (deref_Some _ _ _ Hn), bind_Ok. cbv beta zeta.
    set (n1 := set_current n (add (current n) (weight n))).
    set (h1 := <[p := n1]> h).
    pose proof (only_current_insert h p n (add (current n) (weight n)) Hn) as Hoc.
    fold n1 in Hoc. fold h1 in Hoc.
    assert (~ allocated h1 ns) as Hnal1.
    { intros Hal1. apply Hnal. apply Forall_cons. split; [by eexists |].
      by apply (only_current_allocated h h1 ns Hoc). }
    destruct best as [b |].
    + destruct (proj2 (only_current_is_Some h h1 b Hoc) (Hbest b eq_refl))
        as [nb Hnb].
      rewrite (deref_Some _ _ _ Hnb), !bind_Ok.
      apply IH; [done |]. intros b' Hb'.
      destruct (current n1 >? current nb); injection Hb' as <-;
        [unfold h1; by rewrite lookup_insert_eq | by eexists].
    + rewrite bind_Ok. apply IH; [done |]. intros b' [= <-].
      unfold h1. by rewrite lookup_insert_eq.
Qed.

(** X8. [Next] panics exactly when the slice of the balancer holds a
    pointer that is not allocated ([nil]); the panic is then the
    nil-pointer dereference.  This holds for every slice, also one that
    lists a node twice. *)
Theorem smooth_next_panics_iff_nil (r : smoothRoundRobinBalancer)
    (h : gmap nat Node) :
  (panics (Next r h) <-> ~ allocated h (nodes r)) /\
  (panics (Next r h) -> Next r h = Panic NilDereference).
Proof.
  destruct r as [ns]. simpl nodes.
  assert (allocated h ns -> ~ panics (Next (mkBalancer ns) h)) as Hok.
  { intros Hal [e He]. unfold Next in He. simpl nodes in He.
    destruct (Next_loop_any h ns 0 None Hal)
      as (h' & tw' & best' & Hloop & _ & _ & Hbest' & _); [done |].
    rewrite Hloop, bind_Ok in He. simpl in He.
    destruct best' as [b |]; [| done].
    destruct (Hbest' b eq_refl) as [nb Hnb].
    by rewrite (deref_Some _ _ _ Hnb), bind_Ok in He. }
  assert (~ allocated h ns -> Next (mkBalancer ns) h = Panic NilDereference) as Hnil.
  { intros Hnal. unfold Next. simpl nodes.
    by rewrite Next_loop_nil_pointer. }
  split.
  - split.
    + intros Hp Hal. by apply Hok.
    + intros Hnal. rewrite Hnil by done. by eexists.
  - intros Hp. apply Hnil. intros Hal. by apply Hok.
Qed.

Lemma Next_any (r : smoothRoundRobinBalancer) (h : gmap nat Node) :
  allocated h (nodes r) ->
  exists b h',
    Next r h = Ok (b, h') /\
    only_current h h' /\
    (forall p, p ∉ nodes r -> h' !! p = h !! p) /\
    (forall p, wt h' p = wt h p) /\
    (nodes r = [] -> b = None /\ h' = h) /\
    (nodes r <> [] -> exists p, b = Some p /\ p ∈ nodes r).
Proof.
  destruct r as [ns]. simpl nodes. intros Hal.
  destruct (Next_loop_any h ns 0 None Hal)
    as (h1 & tw & best & Hloop & Hoc & Hout & Hbest & Hmem & Hnn); [done |].
  unfold Next. simpl nodes. rewrite Hloop, bind_Ok. simpl.
  assert (forall h2, only_current h h2 -> forall p, wt h2 p = wt h p) as Hw.
  { intros h2 H2 p. unfold wt. specialize (H2 p).
    destruct (h !! p) as [n |]; [by destruct H2 as [c ->] | by rewrite H2]. }
  destruct best as [b |].
  - destruct (Hbest b eq_refl) as [nb Hnb].
    rewrite (deref_Some _ _ _ Hnb), bind_Ok.
    assert (b ∈ ns) as Hb by (by destruct Hmem as [? | (? & [= <-] & ?)]).
    pose proof (only_current_trans _ _ _ Hoc
      (only_current_insert h1 b nb (sub (current nb) tw) Hnb)) as Hoc2.
    eexists _, _. split; [done |]. split; [exact Hoc2 |].
    split; [| split; [by apply Hw |]; split].
    + intros p Hp. rewrite lookup_insert_ne by (intros ->; done). by apply Hout.
    + intros ->. by apply not_elem_of_nil in Hb.
    + intros _. by exists b.
  - eexists _, _. split; [done |]. split; [done |]. split; [done |].
    split; [by apply Hw |]. split.
    + intros ->. simpl in Hloop. by injection Hloop as <- _.
    + intros Hne. by destruct (Hnn Hne).
Qed.

(** X9. On allocated nodes [Next] changes nothing but [current] fields
    of the nodes in its slice: no node is added or removed, servers and
    weights stay, nodes outside the slice are untouched; and it returns
    [nil] only for an empty slice, otherwise a node of the slice. *)
Theorem smooth_next_frame (r : smoothRoundRobinBalancer) (h : gmap nat Node) :
  allocated h (nodes r) ->
  exists b h',
    Next r h = Ok (b, h') /\
    only_current h h' /\
    (forall p, p ∉ nodes r -> h' !! p = h !! p) /\
    (forall p, wt h' p = wt h p) /\
    (b = None <-> nodes r = []) /\
    (forall p, b = Some p -> p ∈ nodes r).
Proof.
  intros Hal.
  destruct (Next_any r h Hal) as (b & h' & HN & Hoc & Hout & Hwt & Hnil & Hsome).
  exists b, h'. split; [done |]. split; [done |]. split; [done |].
  split; [done |]. split.
  - split; [| by intros [-> _]%Hnil].
    intros ->. destruct (decide (nodes r = [])) as [? | Hne]; [done |].
    by destruct (Hsome Hne) as (p & ? & _).
  - intros p ->. destruct (decide (nodes r = [])) as [He | Hne].
    + by destruct (Hnil He).
    + destruct (Hsome Hne) as (q & [= ->] & Hq). done.
Qed.

Lemma smooth_next_frame_witness :
  let h := SmoothExamples.h511 in
  let r := mkBalancer [0; 0; 1]%nat in
  allocated h (nodes r) /\
  exists b h', Next r h = Ok (b, h') /\ h' !! 2%nat = h !! 2%nat /\
    wt h' 0 = 5.
Proof.
  intros h r.
  assert (allocated h (nodes r)) as Hal
    by (repeat apply Forall_cons_2;
        [by eexists | by eexists | by eexists | apply Forall_nil_2]).
  split; [exact Hal |].
  destruct (smooth_next_frame r h Hal) as (b & h' & HN & _ & Hout & Hwt & _).
  exists b, h'. split; [exact HN |]. split.
  - apply Hout. simpl. intros Hin.
    repeat (apply elem_of_cons in Hin as [Hin | Hin]; [discriminate Hin |]).
    by apply not_elem_of_nil in Hin.
  - rewrite Hwt. reflexivity.
Defined.

Lemma smooth_next_panics_iff_nil_witness :
  let h := SmoothExamples.h511 in
  ~ allocated h [0; 7]%nat /\
  Next (mkBalancer [0; 7]%nat) h = Panic NilDereference.
Proof.
  intros h.
  assert (~ allocated h [0; 7]%nat) as Hnal.
  { intros Hal. apply Forall_cons in Hal as [_ Hal].
    apply Forall_cons in Hal as [[n Hn] _]. discriminate Hn. }
  split; [exact Hnal |].
  destruct (smooth_next_panics_iff_nil (mkBalancer [0; 7]%nat) h) as [Hiff Hkind].
  apply Hkind, Hiff. exact Hnal.
Defined.

(** What [pick] returns stands first among the entries holding the
    maximum. *)
Lemma pick_Some_first (c : nat -> Z) (ns : list nat) (b0 b : nat) :
  pick c ns (Some b0) = Some b ->
  c b0 <= c b /\
  (forall q, q ∈ ns -> c q <= c b) /\
  (b = b0 \/
   exists i, ns !! i = Some b /\ c b0 < c b /\
     forall j q, (j < i)%nat -> ns !! j = Some q -> c q < c b).
Proof.
  revert b0. induction ns as [| p ns IH]; intros b0 Hpick; simpl in Hpick.
  - injection Hpick as <-. split; [lia |]. split; [| by left].
    intros q Hq. by apply not_elem_of_nil in Hq.
  - destruct (Z.gtb_spec (c p) (c b0)) as [Hgt | Hle].
    + destruct (IH p Hpick) as (Hge & Hmax & Hfirst).
      split; [lia |]. split.
      * intros q [-> | Hq]%elem_of_cons; [done | by apply Hmax].
      * right. destruct Hfirst as [-> | (i & Hi & Hlt & Hbefore)].
        -- exists 0%nat. split; [done |]. split; [lia |]. intros j q Hj. lia.
        -- exists (S i). split; [done |]. split; [lia |].
           intros [| j] q Hj Hq; [injection Hq as <-; lia |].
           apply (Hbefore j q); [lia | done].
    + destruct (IH b0 Hpick) as (Hge & Hmax & Hfirst).
      split; [done |]. split.
      * intros q [-> | Hq]%elem_of_cons; [lia | by apply Hmax].
      * destruct Hfirst as [-> | (i & Hi & Hlt & Hbefore)]; [by left | right].
        exists (S i). split; [done |]. split; [done |].
        intros [| j] q Hj Hq; [injection Hq as <-; lia |].
        apply (Hbefore j q); [lia | done].
Qed.

Lemma pick_None_first (c : nat -> Z) (ns : list nat) (b : nat) :
  pick c ns None = Some b ->
  exists i, ns !! i = Some b /\
    (forall q, q ∈ ns -> c q <= c b) /\
    (forall j q, (j < i)%nat -> ns !! j = Some q -> c q < c b).
Proof.
  destruct ns as [| p ns]; [done |]. simpl. intros Hpick.
  destruct (pick_Some_first c ns p b Hpick) as (Hge & Hmax & Hfirst).
  destruct Hfirst as [-> | (i & Hi & Hlt & Hbefore)].
  - exists 0%nat. split; [done |]. split.
    + intros q [-> | Hq]%elem_of_cons; [done | by apply Hmax].
    + intros j q Hj. lia.
  - exists (S i). split; [done |]. split.
    + intros q [-> | Hq]%elem_of_cons; [done | by apply Hmax].
    + intros [| j] q Hj Hq; [injection Hq as <-; lia |].
      apply (Hbefore j q); [lia | done].
Qed.

(** X10. The tie-break of [Next]: over distinct allocated nodes the node
    returned holds the largest raised accumulator, and every node that
    stands before it in the slice holds a strictly smaller one; among
    equal maxima the first in slice order wins. *)
Theorem smooth_next_first_maximum (ns : list nat) (h : gmap nat Node) :
  NoDup ns -> allocated h ns -> ns <> [] ->
  exists b h' i,
    Next (mkBalancer ns) h = Ok (Some b, h') /\
    ns !! i = Some b /\
    (forall q, q ∈ ns -> raised h q <= raised h b) /\
    (forall j q, (j < i)%nat -> ns !! j = Some q -> raised h q < raised h b).
Proof.
  intros Hnd Hal Hne.
  destruct (Next_loop_spec h ns 0 None Hnd Hal) as (h1 & Hloop & Hh1); [done |].
  change (wrap 0) with 0 in Hloop.
  destruct (pick_None (cur h1) ns Hne) as (b & Hb & Hin & _).
  destruct (pick_None_first (cur h1) ns b Hb) as (i & Hi & Hmax & Hbefore).
  rewrite Hb in Hloop.
  assert (is_Some (h1 !! b)) as [nb Hnb].
  { apply (bumped_is_Some h h1 ns Hh1). unfold allocated in Hal.
    rewrite Forall_forall in Hal. by apply Hal. }
  assert (forall q, q ∈ ns -> cur h1 q = raised h q) as Hr.
  { intros q Hq. rewrite (bumped_cur h h1 ns Hh1). by rewrite decide_True. }
  eexists b, _, i. split; [| split; [done |]; split].
  - unfold Next. simpl nodes. rewrite Hloop, bind_Ok. simpl.
    by rewrite (deref_Some _ _ _ Hnb), bind_Ok.
  - intros q Hq. rewrite <- (Hr q Hq), <- (Hr b Hin). by apply Hmax.
  - intros j q Hj Hq.
    rewrite <- (Hr q) by (by eapply list_elem_of_lookup_2).
    rewrite <- (Hr b Hin). by eapply Hbefore.
Qed.

Lemma smooth_next_first_maximum_witness :
  let h := SmoothExamples.heap3 2 2 2 in
  let ns := [0; 1; 2]%nat in
  NoDup ns /\ allocated h ns /\ ns <> [] /\
  exists h', Next (mkBalancer ns) h = Ok (Some 0%nat, h').
Proof.
  intros h ns.
  assert (NoDup ns) as Hnd by compute_done.
  assert (allocated h ns) as Hal
    by (repeat apply Forall_cons_2;
        [by eexists | by eexists | by eexists | apply Forall_nil_2]).
  assert (ns <> []) as Hne by done.
  split; [exact Hnd |]. split; [exact Hal |]. split; [exact Hne |].
  destruct (smooth_next_first_maximum ns h Hnd Hal Hne)
    as (b & h' & i & HN & Hi & _ & Hbefore).
  exists h'.
  destruct i as [| i].
  - injection Hi as <-. exact HN.
  - exfalso. specialize (Hbefore 0%nat 0%nat (Nat.lt_0_succ i) eq_refl).
    assert (b = 1 \/ b = 2)%nat as [-> | ->].
    { destruct i as [| [| i]]; simpl in Hi; [left | right | done]; congruence. }
    + vm_compute in Hbefore. discriminate Hbefore.
    + vm_compute in Hbefore. discriminate Hbefore.
Defined.

(** X13. A single node: whatever its weight, every call returns it and
    leaves the heap exactly as it was. *)
Theorem smooth_single_node (h : gmap nat Node) (p : nat) (n : Node) (k : nat) :
  h !! p = Some n -> in_range (current n) ->
  Next (mkBalancer [p]) h = Ok (Some p, h) /\
  calls k (mkBalancer [p]) h = Ok (replicate k (Some p), h).
Proof.
  intros Hn Hr.
  assert (Next (mkBalancer [p]) h = Ok (Some p, h)) as HN.
  { unfold Next. simpl nodes. rewrite Next_loop_cons.
    rewrite (deref_Some _ _ _ Hn), bind_Ok. cbv beta zeta. rewrite bind_Ok.
    cbn [Next_loop]. rewrite bind_Ok. cbv beta iota.
    unfold deref. rewrite lookup_insert_eq, bind_Ok.
    do 2 f_equal. rewrite insert_insert_eq. apply insert_id.
    rewrite Hn. f_equal. rewrite set_current_twice. simpl.
    assert (sub (add (current n) (weight n)) (add 0 (weight n)) = current n)
      as ->.
    { unfold sub, add. rewrite Z.add_0_l, wrap_sub_r, wrap_sub_l.
      replace (current n + weight n - weight n) with (current n) by lia.
      by apply wrap_exact. }
    by rewrite set_current_same. }
  split; [done |].
  induction k as [| k IH]; [done |].
  rewrite (calls_S_Ok _ _ _ _ _ _ _ IH HN). do 2 f_equal.
  clear. induction k as [| k IH]; [done |]. simpl. by rewrite IH.
Qed.

Lemma smooth_single_node_witness :
  let h : gmap nat Node := <[3%nat := mkNode "only" 0 10]> ∅ in
  h !! 3%nat = Some (mkNode "only" 0 10) /\ in_range 0 /\
  calls 100 (mkBalancer [3%nat]) h = Ok (replicate 100 (Some 3%nat), h).
Proof.
  intros h.
  assert (h !! 3%nat = Some (mkNode "only" 0 10)) as Hn by reflexivity.
  assert (in_range 0) as Hr by (split; vm_compute; discriminate).
  split; [exact Hn |]. split; [exact Hr |].
  exact (proj2 (smooth_single_node h 3 _ 100 Hn Hr)).
Defined.

(** ** Runs from zero *)

Lemma calls_frame (ns : list nat) (k : nat) (h h' : gmap nat Node)
    (sel : list (option nat)) :
  allocated h ns ->
  calls k (mkBalancer ns) h = Ok (sel, h') ->
  only_current h h' /\
  (forall p, p ∉ ns -> h' !! p = h !! p) /\
  (ns <> [] -> Forall (fun x => exists p, x = Some p /\ p ∈ ns) sel).
Proof.
  intros Hal. revert sel h'. induction k as [| k IH]; intros sel h' Hc.
  - injection Hc as <- <-. split; [apply only_current_refl |].
    split; [done |]. intros _. constructor.
  - apply calls_S_inv in Hc as (sel' & h1 & b & Hc & HN & ->).
    destruct (IH _ _ Hc) as (Hoc & Hout & Hmem).
    destruct (Next_any (mkBalancer ns) h1) as
      (b' & h2 & HN' & Hoc' & Hout' & _ & _ & Hsome);
      [by apply (only_current_allocated h h1 ns Hoc) |].
    rewrite HN' in HN. injection HN as <- <-.
    split; [by eapply only_current_trans |]. split.
    + intros p Hp. rewrite Hout' by done. by apply Hout.
    + intros Hne. apply Forall_app. split; [by apply Hmem |].
      apply Forall_cons. split; [by apply Hsome | constructor].
Qed.

Lemma steady_tight (W : nat -> Z) (ns : list nat) (h : gmap nat Node) (p : nat) :
  steady W ns h -> p ∈ ns ->
  - sumZ W ns < cur h p <= (Z.of_nat (length ns) - 1) * (sumZ W ns - 1).
Proof.
  intros (_ & _ & Hsum & Hlow) Hp. split; [by apply Hlow |].
  pose proof (sumZ_elem_lower (cur h) (1 - sumZ W ns) ns p Hp) as Hup.
  rewrite Hsum in Hup.
  assert (forall q, q ∈ ns -> 1 - sumZ W ns <= cur h q) as Hlo
    by (intros q Hq; specialize (Hlow q Hq); lia).
  specialize (Hup Hlo). lia.
Qed.

(** X11. No overflow, ever: for a balancer the constructor built over
    distinct nodes with accumulators at 0, any number of calls runs
    without panic, returns nodes of the slice only, changes nothing but
    accumulators, and keeps every accumulator above [-T] and at most
    [(N - 1) * (T - 1)], far inside the range of [int]. *)
Theorem smooth_rr_never_overflows (h : gmap nat Node) (ns : list nat)
    (r : smoothRoundRobinBalancer) (k : nat) :
  NoDup ns -> weights_fit ns ->
  NewSmoothRRBalancer h ns = Ok r ->
  (forall p, p ∈ ns -> cur h p = 0) ->
  exists sel h',
    calls k r h = Ok (sel, h') /\
    length sel = k /\
    Forall (fun x => exists p, x = Some p /\ p ∈ ns) sel /\
    only_current h h' /\
    (forall p, p ∈ ns ->
       - sumZ (wt h) ns < cur h' p
         <= (Z.of_nat (length ns) - 1) * (sumZ (wt h) ns - 1) /\
       - maxTotalWeight < cur h' p <= maxTotalWeight * maxTotalWeight).
Proof.
  intros Hnd Hfit HNew Hzero.
  destruct (New_accepted h ns r Hnd Hfit HNew) as (-> & Hal & Hacc).
  pose proof (zero_steady h ns Hal Hacc Hzero) as Hst0.
  destruct (calls_steady (wt h) ns h k Hacc Hst0 Hzero)
    as (sel & h' & Hc & Hst & Hlen & _).
  destruct (calls_frame ns k h h' sel Hal Hc) as (Hoc & _ & Hmem).
  exists sel, h'. split; [done |]. split; [done |].
  split; [apply Hmem; by destruct Hacc |]. split; [done |].
  intros p Hp. split; [by apply steady_tight | by eapply steady_bounds].
Qed.

Lemma smooth_rr_never_overflows_witness :
  NoDup SmoothExamples.ns511 /\ weights_fit SmoothExamples.ns511 /\
  NewSmoothRRBalancer SmoothExamples.h511 SmoothExamples.ns511
    = Ok (mkBalancer SmoothExamples.ns511) /\
  (forall p, p ∈ SmoothExamples.ns511 -> cur SmoothExamples.h511 p = 0) /\
  exists sel h',
    calls 1000 (mkBalancer SmoothExamples.ns511) SmoothExamples.h511
      = Ok (sel, h') /\
    length sel = 1000%nat.
Proof.
  assert (NoDup SmoothExamples.ns511) as Hnd by compute_done.
  assert (weights_fit SmoothExamples.ns511) as Hfit by (vm_compute; discriminate).
  assert (NewSmoothRRBalancer SmoothExamples.h511 SmoothExamples.ns511
          = Ok (mkBalancer SmoothExamples.ns511)) as HNew by (vm_compute; reflexivity).
  assert (forall p, p ∈ SmoothExamples.ns511 -> cur SmoothExamples.h511 p = 0) as Hzero.
  { intros p Hp. unfold SmoothExamples.ns511 in Hp.
    repeat (apply elem_of_cons in Hp as [-> | Hp]; [vm_compute; reflexivity |]).
    by apply not_elem_of_nil in Hp. }
  split; [exact Hnd |]. split; [exact Hfit |]. split; [exact HNew |].
  split; [exact Hzero |].
  destruct (smooth_rr_never_overflows _ _ _ 1000 Hnd Hfit HNew Hzero)
    as (sel & h' & Hc & Hlen & _).
  exists sel, h'. split; [exact Hc | exact Hlen].
Defined.

(** One full period from zero, on the abstract weights. *)
Lemma full_period (W : nat -> Z) (ns : list nat) (h : gmap nat Node) :
  accepted W ns -> steady W ns h ->
  (forall p, p ∈ ns -> cur h p = 0) ->
  exists sel h',
    calls (Z.to_nat (sumZ W ns)) (mkBalancer ns) h = Ok (sel, h') /\
    (forall p, p ∈ ns -> Z.of_nat (times_selected p sel) = W p) /\
    (forall p, p ∈ ns -> cur h' p = 0).
Proof.
  intros Hacc Hst0 Hzero.
  destruct (accepted_total _ _ Hacc) as [HN HT].
  set (T := sumZ W ns) in *.
  destruct (calls_steady W ns h (Z.to_nat T) Hacc Hst0 Hzero)
    as (sel & h' & Hcalls & Hst & Hlen & Hcur).
  rewrite Z2Nat.id in Hcur by lia.
  pose proof Hst as (_ & _ & Hsum & Hlow).
  set (cnt := fun p => Z.of_nat (times_selected p sel)) in *.
  assert (forall p, p ∈ ns -> 0 <= W p - cnt p) as Hle.
  { intros p Hp. specialize (Hlow p Hp). rewrite (Hcur p Hp) in Hlow.
    fold T in Hlow. fold (cnt p) in Hlow. nia. }
  assert (sumZ cnt ns = T) as Hcnt.
  { rewrite (sumZ_ext (cur h') (fun p => T * W p - T * cnt p)) in Hsum
      by (intros p Hp; by rewrite (Hcur p Hp)).
    rewrite sumZ_linear in Hsum. fold T in Hsum. nia. }
  assert (forall p, p ∈ ns -> W p - cnt p = 0) as Heq.
  { apply sumZ_all_zero; [| done].
    rewrite (sumZ_ext _ (fun p => 1 * W p - 1 * cnt p)) by (intros; lia).
    rewrite sumZ_linear. fold T. lia. }
  exists sel, h'. split; [done |]. split.
  - intros p Hp. specialize (Heq p Hp). fold (cnt p). lia.
  - intros p Hp. rewrite (Hcur p Hp). specialize (Heq p Hp). fold (cnt p). nia.
Qed.

Lemma times_selected_app (p : nat) (l1 l2 : list (option nat)) :
  times_selected p (l1 ++ l2) = (times_selected p l1 + times_selected p l2)%nat.
Proof. unfold times_selected. by rewrite filter_app, length_app. Qed.

Lemma times_selected_repeat (p : nat) (sel : list (option nat)) (q : nat) :
  times_selected p (concat (replicate q sel)) = (q * times_selected p sel)%nat.
Proof.
  induction q as [| q IH]; [done |].
  change (concat (replicate (S q) sel)) with (sel ++ concat (replicate q sel)).
  rewrite times_selected_app, IH. lia.
Qed.

Lemma calls_repeat (r : smoothRoundRobinBalancer) (h : gmap nat Node)
    (T : nat) (sel : list (option nat)) (q : nat) :
  calls T r h = Ok (sel, h) ->
  calls (q * T) r h = Ok (concat (replicate q sel), h).
Proof.
  intros Hc. induction q as [| q IH]; [done |].
  change (S q * T)%nat with (T + q * T)%nat.
  change (concat (replicate (S q) sel)) with (sel ++ concat (replicate q sel)).
  by apply (calls_app _ _ _ _ h).
Qed.

(** X12. The period: for a balancer the constructor built over distinct
    nodes with accumulators at 0, the [T] calls of one period, [T] the
    total weight, bring the heap back to exactly what it was, so the
    selections repeat with period [T]: [q * T] calls return the
    selections of the first period [q] times over, each entry [q] times
    its weight. *)
Theorem smooth_rr_periodic (h : gmap nat Node) (ns : list nat)
    (r : smoothRoundRobinBalancer) :
  NoDup ns -> weights_fit ns ->
  NewSmoothRRBalancer h ns = Ok r ->
  (forall p, p ∈ ns -> cur h p = 0) ->
  exists sel,
    calls (Z.to_nat (sumZ (wt h) ns)) r h = Ok (sel, h) /\
    forall q,
      calls (q * Z.to_nat (sumZ (wt h) ns)) r h
        = Ok (concat (replicate q sel), h) /\
      forall p, p ∈ ns ->
        Z.of_nat (times_selected p (concat (replicate q sel)))
          = Z.of_nat q * wt h p.
Proof.
  intros Hnd Hfit HNew Hzero.
  destruct (New_accepted h ns r Hnd Hfit HNew) as (-> & Hal & Hacc).
  pose proof (zero_steady h ns Hal Hacc Hzero) as Hst0.
  destruct (full_period (wt h) ns h Hacc Hst0 Hzero)
    as (sel & h' & Hc & Hcount & Hback).
  destruct (calls_frame ns _ h h' sel Hal Hc) as (Hoc & Hout & _).
  assert (h' = h) as ->.
  { apply map_eq. intros p. destruct (decide (p ∈ ns)) as [Hp | Hp];
      [| by apply Hout].
    specialize (Hoc p). specialize (Hback p Hp). specialize (Hzero p Hp).
    unfold cur in Hback, Hzero.
    destruct (h !! p) as [n |]; [| done].
    destruct Hoc as [c Hc']. rewrite Hc' in Hback |- *. simpl in Hback.
    f_equal. rewrite Hback, <- Hzero. apply set_current_same. }
  exists sel. split; [done |]. intros q. split; [by apply calls_repeat |].
  intros p Hp. rewrite times_selected_repeat, Nat2Z.inj_mul.
  by rewrite (Hcount p Hp).
Qed.

Lemma smooth_rr_periodic_witness :
  NoDup SmoothExamples.ns511 /\ weights_fit SmoothExamples.ns511 /\
  NewSmoothRRBalancer SmoothExamples.h321 SmoothExamples.ns511
    = Ok (mkBalancer SmoothExamples.ns511) /\
  (forall p, p ∈ SmoothExamples.ns511 -> cur SmoothExamples.h321 p = 0) /\
  exists sel,
    calls 600 (mkBalancer SmoothExamples.ns511) SmoothExamples.h321
      = Ok (sel, SmoothExamples.h321) /\
    times_selected 0 sel = 300%nat.
Proof.
  assert (NoDup SmoothExamples.ns511) as Hnd by compute_done.
  assert (weights_fit SmoothExamples.ns511) as Hfit by (vm_compute; discriminate).
  assert (NewSmoothRRBalancer SmoothExamples.h321 SmoothExamples.ns511
          = Ok (mkBalancer SmoothExamples.ns511)) as HNew by (vm_compute; reflexivity).
  assert (forall p, p ∈ SmoothExamples.ns511 -> cur SmoothExamples.h321 p = 0) as Hzero.
  { intros p Hp. unfold SmoothExamples.ns511 in Hp.
    repeat (apply elem_of_cons in Hp as [-> | Hp]; [vm_compute; reflexivity |]).
    by apply not_elem_of_nil in Hp. }
  split; [exact Hnd |]. split; [exact Hfit |]. split; [exact HNew |].
  split; [exact Hzero |].
  destruct (smooth_rr_periodic _ _ _ Hnd Hfit HNew Hzero) as (sel & _ & Hq).
  destruct (Hq 100%nat) as [Hc Hcount].
  exists (concat (replicate 100 sel)). split.
  - exact Hc.
  - assert (0%nat ∈ SmoothExamples.ns511) as H0 by compute_done.
    specialize (Hcount 0%nat H0).
    change (wt SmoothExamples.h321 0) with 3 in Hcount. lia.
Defined.

(** ** The panics of the constructor *)

Lemma validate_Panic_inv (h : gmap nat Node) (ns : list nat) (tw : Z) (e : panic) :
  allocated h ns ->
  validate h ns tw = Panic e ->
  exists i p,
    ns !! i = Some p /\
    (forall j q, (j < i)%nat -> ns !! j = Some q -> 0 < wt h q <= maxWeight) /\
    (wt h p <= 0 /\ e = ErrWeightNotPositive (wt h p) \/
     maxWeight < wt h p /\ e = ErrWeightExceedsMax (wt h p)).
Proof.
  revert tw. induction ns as [| p ns IH]; intros tw Hal Hv; [done |].
  apply Forall_cons in Hal as [[n Hn] Hal]. simpl in Hv.
  rewrite (deref_Some _ _ _ Hn), bind_Ok in Hv.
  destruct (Z.leb_spec (weight n) 0) as [Hle | Hpos].
  { injection Hv as <-. exists 0%nat, p. rewrite (wt_lookup _ _ _ Hn).
    split; [done |]. split; [intros j q Hj; lia | by left]. }
  destruct (Z.gtb_spec (weight n) maxWeight) as [Hgt | Hok].
  { injection Hv as <-. exists 0%nat, p. rewrite (wt_lookup _ _ _ Hn).
    split; [done |]. split; [intros j q Hj; lia | by right]. }
  destruct (IH _ Hal Hv) as (i & q & Hi & Hbefore & Hkind).
  exists (S i), q. split; [done |]. split; [| done].
  intros [| j] q' Hj Hq'.
  - injection Hq' as <-. rewrite (wt_lookup _ _ _ Hn). lia.
  - apply (Hbefore j q'); [lia | done].
Qed.

(** X14. What the panic of [NewSmoothRRBalancer] reports, over allocated
    nodes: the empty slice; or the first node in slice order whose weight
    fails a check, with that weight, the check for a weight of 0 or less
    coming before the one against [maxWeight]; or, when every weight
    passes, the total.  The last case needs at least 11 nodes: ten weights
    of at most 1,000,000 cannot exceed 10,000,000. *)
Theorem new_smooth_rr_panic_kinds (h : gmap nat Node) (ns : list nat) (e : panic) :
  allocated h ns ->
  NewSmoothRRBalancer h ns = Panic e ->
  (ns = [] /\ e = ErrNodesEmpty) \/
  (exists i p,
     ns !! i = Some p /\
     (forall j q, (j < i)%nat -> ns !! j = Some q -> 0 < wt h q <= maxWeight) /\
     (wt h p <= 0 /\ e = ErrWeightNotPositive (wt h p) \/
      maxWeight < wt h p /\ e = ErrWeightExceedsMax (wt h p))) \/
  (Forall (fun p => 0 < wt h p <= maxWeight) ns /\
   e = ErrTotalExceedsMax (sum_int (wt h) ns 0) /\
   maxTotalWeight < sum_int (wt h) ns 0 /\
   (11 <= length ns)%nat).
Proof.
  intros Hal HNew.
  destruct ns as [| p0 ns0] eqn:Hns; [left; split; [done |] |].
  { by injection HNew as <-. }
  rewrite <- Hns in *. assert (ns <> []) as Hne by (rewrite Hns; done).
  clear Hns. right.
  destruct (weights_cases h ns) as [Hok | Hbad].
  - right. rewrite New_unfold in HNew by done.
    destruct (Z.gtb_spec (sum_int (wt h) ns 0) maxTotalWeight) as [Hgt | Hle];
      [| done].
    injection HNew as <-. split; [done |]. split; [done |]. split; [lia |].
    destruct (Z_le_gt_dec (Z.of_nat (length ns) * maxWeight) max_int) as [Hfit | Hbig].
    + destruct (accepted_total_exact h ns Hfit Hok) as [Hex _].
      assert (sumZ (wt h) ns <= Z.of_nat (length ns) * maxWeight) as Hup.
      { apply sumZ_upper. intros p Hp. rewrite Forall_forall in Hok.
        specialize (Hok p Hp). lia. }
      unfold maxWeight, maxTotalWeight in *. lia.
    + unfold maxWeight, max_int in Hbig. lia.
  - left. unfold NewSmoothRRBalancer in HNew.
    destruct (decide (length ns = 0%nat)); [by destruct ns |].
    destruct (validate h ns 0) as [t | e'] eqn:Hv.
    + exfalso. apply validate_Ok_inv in Hv as [_ Hok].
      eapply weights_exclusive; eauto.
    + rewrite bind_Panic in HNew. injection HNew as <-.
      by eapply validate_Panic_inv.
Qed.

(** The repository's test of the total: its first weight already exceeds
    [maxWeight], which is what the panic reports. *)
Lemma new_smooth_rr_panic_kinds_witness :
  let h : gmap nat Node :=
    <[0%nat := mkNode "a" 0 (maxTotalWeight - 100)]>
      (<[1%nat := mkNode "b" 0 200]> ∅) in
  allocated h [0; 1]%nat /\
  NewSmoothRRBalancer h [0; 1]%nat = Panic (ErrWeightExceedsMax 9999900) /\
  ~ (11 <= length [0; 1]%nat)%nat.
Proof.
  intros h.
  assert (allocated h [0; 1]%nat) as Hal
    by (repeat apply Forall_cons_2; [by eexists | by eexists | apply Forall_nil_2]).
  assert (NewSmoothRRBalancer h [0; 1]%nat = Panic (ErrWeightExceedsMax 9999900))
    as HNew by reflexivity.
  split; [exact Hal |]. split; [exact HNew |].
  destruct (new_smooth_rr_panic_kinds h _ _ Hal HNew)
    as [[Hnil _] | [_ | (_ & Hkind & _)]];
    [discriminate Hnil | simpl; lia | discriminate Hkind].
Defined.

End SmoothMore.
